(** * Chunker and hierarchical merger: a shallow embedding

    The development follows [chunker.py] (class [SmartChunker]) and
    [merger.py] (class [HierarchicalMerger]).  Python [str] values are
    lists of characters, Python [int] positions are [Z], [len] of a list
    is [nat].  Code that can raise or loop runs in the [exec] monad, and
    the list objects that [merge_documents] shares with its caller live
    in a store. *)

From Stdlib Require Import ZArith Ascii String Lia.
From stdpp Require Import base list gmap.

Local Open Scope Z_scope.

(** ** Python values and control effects *)

Module Py.

Definition str := list ascii.

(** A string literal. *)
Definition lit (s : string) : str := list_ascii_of_string s.

Definition len (s : str) : Z := Z.of_nat (length s).

(** The line feed of ["\n"]. *)
Definition LF : ascii := ascii_of_nat 10.

Inductive exn :=
| IndexError
| RuntimeError.

(** The result of running a piece of Python: a value, an exception
    that left it, or a loop that used up the iterations it was given. *)
Inductive exec (A : Type) :=
| Returns (a : A)
| Raises (e : exn)
| OutOfFuel.
Arguments Returns {A} a.
Arguments Raises {A} e.
Arguments OutOfFuel {A}.

Definition bind {A B} (m : exec A) (k : A -> exec B) : exec B :=
  match m with
  | Returns a => k a
  | Raises e => Raises e
  | OutOfFuel => OutOfFuel
  end.

(** [l[i]] for an index [i >= 0]. *)
Definition index {A} (l : list A) (i : nat) : exec A :=
  match l !! i with
  | Some x => Returns x
  | None => Raises IndexError
  end.

(** [l[-k]] for [k >= 1]. *)
Definition index_from_end {A} (l : list A) (k : nat) : exec A :=
  if (Nat.leb k (length l) && Nat.ltb 0 k)%bool
  then index l (length l - k)
  else Raises IndexError.

(** [range(start, stop, step)] for a positive step. *)
Definition range (start stop step : nat) : list nat :=
  (fun k => (start + k * step)%nat)
    <$> seq 0 ((stop - start + step - 1) / step).

(** [sep.join(parts)]. *)
Fixpoint join (sep : str) (parts : list str) : str :=
  match parts with
  | [] => []
  | [p] => p
  | p :: rest => p ++ sep ++ join sep rest
  end.

(** A [for] loop whose body can raise, collecting the values. *)
Fixpoint for_each {A B} (f : A -> exec B) (l : list A) : exec (list B) :=
  match l with
  | [] => Returns []
  | a :: l' =>
      bind (f a) (fun b => bind (for_each f l') (fun bs => Returns (b :: bs)))
  end.

(** *** List objects *)

(** A variable holds the address of a list; the store maps the
    addresses of the lists of documents to what they contain. *)
Abbreviation ref := nat.
Abbreviation store := (gmap nat (list str)).

(** The list at an address. *)
Definition deref (h : store) (l : ref) : list str := h !!! l.

(** [l = []]: a new list object. *)
Definition new_list (h : store) : ref * store :=
  let l := fresh (dom h) in (l, <[l := []]> h).

(** [l.append(x)]. *)
Definition append (h : store) (l : ref) (x : str) : store :=
  <[l := deref h l ++ [x]]> h.

(** *** Strings *)

(** [c.isspace()] on the one-byte characters: TAB to CR, FS to US,
    space, NEL and the no-break space.  The pattern [\s] of [re]
    matches the same characters. *)
Definition isspace (c : ascii) : bool :=
  let n := nat_of_ascii c in
  ((9 <=? n) && (n <=? 13) || (28 <=? n) && (n <=? 32)
   || (n =? 133) || (n =? 160))%nat.

Fixpoint lstrip (s : str) : str :=
  match s with
  | c :: s' => if isspace c then lstrip s' else s
  | [] => []
  end.

Definition rstrip (s : str) : str := rev (lstrip (rev s)).

(** [s.strip()]. *)
Definition strip (s : str) : str := rstrip (lstrip s).

(** [re.sub(r"\s+", " ", s)]: [in_run] tells that the characters just
    read were whitespace already replaced by one space. *)
Fixpoint sub_spaces (in_run : bool) (s : str) : str :=
  match s with
  | [] => []
  | c :: s' =>
      if isspace c
      then (if in_run then sub_spaces true s'
            else " "%char :: sub_spaces true s')
      else c :: sub_spaces false s'
  end.

(** The bound of a slice as Python adjusts it: a negative index counts
    from the end, and both ends are clipped to the string. *)
Definition adjust (n i : Z) : Z :=
  if i <? 0 then Z.max (i + n) 0 else Z.min i n.

(** [s[i:j]]. *)
Definition slice (s : str) (i j : Z) : str :=
  let a := adjust (len s) i in
  let b := adjust (len s) j in
  take (Z.to_nat (b - a)) (drop (Z.to_nat a) s).

Fixpoint startswith (s prefix : str) : bool :=
  match prefix, s with
  | [], _ => true
  | p :: prefix', c :: s' => Ascii.eqb p c && startswith s' prefix'
  | _ :: _, [] => false
  end.

(** The highest of the [k] positions [lo], ..., [lo + k - 1] at which
    [sub] occurs in [s], or [-1]. *)
Fixpoint rscan (s sub : str) (lo : Z) (k : nat) : Z :=
  match k with
  | O => -1
  | S k' =>
      let pos := lo + Z.of_nat k' in
      if startswith (drop (Z.to_nat pos) s) sub then pos
      else rscan s sub lo k'
  end.

(** [s.rfind(sub, start, end)]: the highest index in [s] at which
    [sub] occurs within [s[start:end]], or [-1]. *)
Definition rfind (s sub : str) (start end_ : Z) : Z :=
  let n := len s in
  let e := if n <? end_ then n
           else if end_ <? 0 then Z.max (end_ + n) 0 else end_ in
  let b := if start <? 0 then Z.max (start + n) 0 else start in
  if e - b <? len sub then -1
  else rscan s sub b (Z.to_nat (e - b - len sub + 1)).

End Py.

#[export] Instance exec_ret : MRet Py.exec := @Py.Returns.
#[export] Instance exec_bind : MBind Py.exec := fun A B k m => Py.bind m k.

(** ** merger.py *)

Module HierarchicalMerger.
Import Py.

(** One call of [OllamaSummarizer.summarize(text, is_final)]. *)
Record Call := MkCall { call_text : str; call_is_final : bool }.

(** What lies outside the merger.  [backend r i text is_final] is
    what the text-generation service does with the request of the
    [i]-th future of round [r]: [Some response], or [None] when
    [client.generate] raises.  [as_completed r n] is the order in
    which the [n] futures of round [r] complete; [shuffle] is
    [random.shuffle]; [SHUFFLE_CHUNKS] is the flag of that name in
    [config.settings].  The size of the thread pool, [max_workers],
    bounds how many calls run at once and nothing else. *)
Record Env := MkEnv {
  backend : nat -> nat -> str -> bool -> option str;
  as_completed : nat -> nat -> list nat;
  as_completed_perm : forall r n, as_completed r n ≡ₚ seq 0 n;
  shuffle : list str -> list str;
  shuffle_perm : forall l, shuffle l ≡ₚ l;
  SHUFFLE_CHUNKS : bool
}.

(** [summarize(self, text, is_final=False)] with the call it is: the
    stripped response, or [RuntimeError] for any exception of the
    request. *)
Definition summarize (env : Env) (r i : nat) (text : str) (is_final : bool)
  : Call * exec str :=
  (MkCall text is_final,
   match backend env r i text is_final with
   | Some response => Returns (strip response)
   | None => Raises RuntimeError
   end).

Definition _create_pairs (documents : list str) : exec (list (list str)) :=
  for_each
    (fun i => a ← index documents i;
              b ← index documents (i + 1);
              Returns [a; b])
    (range 0 (length documents - 1) 2).

Definition _merge_pair (env : Env) (r i : nat) (pair : list str)
  : Call * exec str :=
  let combined := join [LF; LF] pair in
  summarize env r i combined false.

(** The body of [for future in as_completed(...)]: a result is
    appended to [next_level], an [Exception] is printed and dropped. *)
Definition collect (next_level : ref) (h : store) (future : exec str)
  : store :=
  match future with
  | Returns merged => append h next_level merged
  | _ => h
  end.

(** The body of the [while] loop, round [r]: the new list
    [next_level], the store, and the calls made. *)
Definition merge_round (env : Env) (r : nat) (h : store) (current_level : ref)
  : exec (ref * store * list Call) :=
  let '(next_level, h) := new_list h in
  pairs ← _create_pairs (deref h current_level);
  let futures := imap (fun i pair => _merge_pair env r i pair) pairs in
  let completed :=
    omap (fun i => snd <$> futures !! i) (as_completed env r (length pairs)) in
  let h := foldl (collect next_level) h completed in
  h ← (if (length (deref h current_level) mod 2 =? 1)%nat
       then unpaired ← index_from_end (deref h current_level) 1;
            Returns (append h next_level unpaired)
       else Returns h);
  Returns (next_level, h, fst <$> futures).

(** What one run of [merge_documents] has done: the string it returns,
    the number of rounds, the last level, and the calls in the order of
    submission. *)
Record Merged := MkMerged {
  result : str;
  rounds : nat;
  final_level : list str;
  calls : list Call
}.

Fixpoint merge_loop (fuel : nat) (env : Env) (r : nat) (h : store)
    (current_level : ref) (log : list Call)
  : exec (nat * ref * store * list Call) :=
  match fuel with
  | O => OutOfFuel
  | S fuel' =>
      if (1 <? length (deref h current_level))%nat then
        '(next_level, h, made) ← merge_round env r h current_level;
        let current_level := next_level in
        merge_loop fuel' env (S r) h current_level (log ++ made)
      else Returns (r, current_level, h, log)
  end.

(** [documents] is the address of the caller's list: [random.shuffle]
    writes to that list, and [current_level] starts as another name of
    it.  The store is returned with the result. *)
Definition merge_documents (env : Env) (h : store) (documents : ref)
  : exec (Merged * store) :=
  if (length (deref h documents) =? 0)%nat then
    Returns (MkMerged [] 0 (deref h documents) [], h)
  else if (length (deref h documents) =? 1)%nat then
    only ← index (deref h documents) 0;
    Returns (MkMerged only 0 (deref h documents) [], h)
  else
    let h :=
      if SHUFFLE_CHUNKS env
      then <[documents := shuffle env (deref h documents)]> h
      else h in
    let current_level := documents in
    '(r, current_level, h, log) ←
      merge_loop (length (deref h current_level)) env 0 h current_level [];
    res ← (match deref h current_level with
           | [] => Returns []
           | _ => index (deref h current_level) 0
           end);
    Returns (MkMerged res r (deref h current_level) log, h).

End HierarchicalMerger.

(** ** chunker.py *)

Module SmartChunker.
Import Py.

(** An instance: the two sizes and [self.chonkie], which is [None]
    when the optional library is not installed. *)
Record t := Make {
  max_chunk_size : Z;
  overlap : Z;
  chonkie : option (str -> list str)
}.

Definition separators : list str :=
  [ [LF; LF]; [LF]; lit ". "; lit "! "; lit "? "; lit "; "; lit ", ";
    lit " " ].

(** [pos > start + (self.max_chunk_size * 0.6)], with the product
    taken exactly as three fifths of the size. *)
Definition past_60_percent (self : t) (start pos : Z) : bool :=
  3 * max_chunk_size self <? 5 * (pos - start).

(** The [for separator in separators] loop: the position after the
    first separator, in priority order, whose last occurrence in the
    window lies past 60% of the size; [end_] when there is none. *)
Fixpoint best_break (self : t) (text : str) (start end_ : Z)
    (seps : list str) : Z :=
  match seps with
  | [] => end_
  | separator :: seps' =>
      let pos := rfind text separator start end_ in
      if negb (pos =? -1) && past_60_percent self start pos
      then pos + len separator
      else best_break self text start end_ seps'
  end.

(** The loop of [_split_text_manual] between two iterations, and after
    it has ended. *)
Inductive loop_state :=
| Running (start : Z) (chunks : list str)
| Finished (chunks : list str).

(** One iteration: the test of the [while] and, when it holds, the body. *)
Definition iteration (self : t) (text : str) (start : Z) (chunks : list str)
  : loop_state :=
  let text_length := len text in
  if start <? text_length then
    let end_ := Z.min (start + max_chunk_size self) text_length in
    if end_ =? text_length then
      let chunk := slice text start end_ in
      Finished (chunks ++ [chunk])
    else
      let best_break_pos := best_break self text start end_ separators in
      let chunk := slice text start best_break_pos in
      Running (if overlap self <? best_break_pos
               then best_break_pos - overlap self
               else best_break_pos)
              (chunks ++ [chunk])
  else Finished chunks.

Fixpoint iterate (n : nat) (self : t) (text : str) (st : loop_state)
  : loop_state :=
  match n, st with
  | S n', Running start chunks =>
      iterate n' self text (iteration self text start chunks)
  | _, _ => st
  end.

Definition _split_text_manual (fuel : nat) (self : t) (text : str)
  : exec (list str) :=
  match iterate fuel self text (Running 0 []) with
  | Finished chunks => Returns chunks
  | Running _ _ => OutOfFuel
  end.

Definition chunk_text (fuel : nat) (self : t) (text : str)
  : exec (list str) :=
  let cleaned_text := sub_spaces false (strip text) in
  match chonkie self with
  | Some split_text => Returns (split_text cleaned_text)
  | None => _split_text_manual fuel self cleaned_text
  end.

Definition _filter_chunks (chunks : list str) : exec (list str) :=
  if (length chunks <=? 3)%nat then Returns chunks
  else
    first_chunk ← index chunks 0;
    second_to_last_chunk ← index_from_end chunks 2;
    let middle_index := (length chunks / 2)%nat in
    middle_chunk ← index chunks middle_index;
    Returns [first_chunk; middle_chunk; second_to_last_chunk].

Definition nonempty (s : str) : bool :=
  match s with [] => false | _ => true end.

(** The flush of [current_chunk] into [merged_chunks]. *)
Definition flush (min_chunk_size : Z) (merged_chunks : list str)
    (current_chunk : str) : list str :=
  if nonempty current_chunk && (min_chunk_size <=? len current_chunk)
  then merged_chunks ++ [current_chunk]
  else merged_chunks.

(** The body of [for chunk in chunks] on the pair
    [(merged_chunks, current_chunk)]. *)
Definition coalesce (self : t) (min_chunk_size : Z)
    (acc : list str * str) (chunk : str) : list str * str :=
  let '(merged_chunks, current_chunk) := acc in
  let chunk := strip chunk in
  if negb (nonempty chunk) then acc
  else if len current_chunk + len chunk <=? max_chunk_size self then
    (merged_chunks,
     if nonempty current_chunk then current_chunk ++ lit " " ++ chunk
     else chunk)
  else (flush min_chunk_size merged_chunks current_chunk, chunk).

Definition merge_small (self : t) (min_chunk_size : Z) (chunks : list str)
  : list str :=
  let '(merged_chunks, current_chunk) :=
    foldl (coalesce self min_chunk_size) ([], []) chunks in
  flush min_chunk_size merged_chunks current_chunk.

Definition chunk_document (fuel : nat) (self : t) (content : str)
    (min_chunk_size : Z) : exec (list str) :=
  chunks ← chunk_text fuel self content;
  let merged_chunks := merge_small self min_chunk_size chunks in
  _filter_chunks merged_chunks.

End SmartChunker.

(** ** Vocabulary of the statements about the merger *)

Module MergeSpec.
Import Py HierarchicalMerger.

(** The documents two by two from the start, as the index loop of
    [_create_pairs] forms them. *)
Fixpoint adjacent_pairs (l : list str) : list (list str) :=
  match l with
  | a :: b :: rest => [a; b] :: adjacent_pairs rest
  | _ => []
  end.

(** The outcome of each future of a round, in submission order. *)
Definition outcomes (env : Env) (r : nat) (level : list str)
  : list (exec str) :=
  imap (fun i pair => snd (_merge_pair env r i pair)) (adjacent_pairs level).

(** The [summarize] calls of a round, in submission order. *)
Definition requests (env : Env) (r : nat) (level : list str) : list Call :=
  imap (fun i pair => fst (_merge_pair env r i pair)) (adjacent_pairs level).

(** The outcomes of a round in the order in which its futures
    complete. *)
Definition completed (env : Env) (r : nat) (level : list str)
  : list (exec str) :=
  omap (fun i => outcomes env r level !! i)
       (as_completed env r (length (adjacent_pairs level))).

Definition summary_of (o : exec str) : option str :=
  match o with
  | Returns s => Some s
  | _ => None
  end.

Definition successes (l : list (exec str)) : list str := omap summary_of l.

(** The summaries a round collects, in completion order. *)
Definition survivors (env : Env) (r : nat) (level : list str) : list str :=
  successes (completed env r level).

(** What [merge_documents] returns for its last level. *)
Definition first_or_empty (level : list str) : str :=
  match level with
  | [] => []
  | first :: _ => first
  end.

Definition failed (o : exec str) : bool :=
  match o with
  | Returns _ => false
  | _ => true
  end.

Definition failures (l : list (exec str)) : nat :=
  length (filter (fun o => failed o = true) l).

(** The unpaired last document of a level of odd length. *)
Definition odd_tail (level : list str) : list str :=
  if (length level mod 2 =? 1)%nat then option_list (last level) else [].

Definition ceil_half (n : nat) : nat := ((n + 1) / 2)%nat.

(** The level a round leaves: the summaries in completion order, then
    the unpaired document. *)
Definition next_level_of (env : Env) (r : nat) (level : list str)
  : list str :=
  survivors env r level ++ odd_tail level.

(** The level the first round works on. *)
Definition initial_level (env : Env) (documents : list str) : list str :=
  if SHUFFLE_CHUNKS env then shuffle env documents else documents.

(** [reaches env documents r level]: the run of [merge_documents] on
    a list that holds [documents] tests its loop for the round [r]
    with [level] in [current_level]. *)
Inductive reaches (env : Env) (documents : list str)
  : nat -> list str -> Prop :=
| reaches_first :
    (1 < length documents)%nat ->
    reaches env documents 0 (initial_level env documents)
| reaches_next r level (h : store) (current_level : ref)
    next_level h' made next :
    reaches env documents r level ->
    (1 < length level)%nat ->
    h !! current_level = Some level ->
    merge_round env r h current_level = Returns (next_level, h', made) ->
    h' !! next_level = Some next ->
    reaches env documents (S r) next.

(** No request to the text-generation service ever fails. *)
Definition never_fails (env : Env) : Prop :=
  forall r i text is_final, is_Some (backend env r i text is_final).

End MergeSpec.

(** ** Vocabulary of the statements about the chunker *)

Module ChunkSpec.
Import Py SmartChunker.

(** The text [chunk_text] cuts: [cleaned_text]. *)
Definition normalized (text : str) : str := sub_spaces false (strip text).

(** [seamless overlap n e spans]: the windows [(a, b)] lie in a text
    of [n] characters, and each begins where the one before it ended
    (at [e] for the first) or at most [overlap] characters earlier. *)
Fixpoint seamless (overlap n e : Z) (spans : list (Z * Z)) : Prop :=
  match spans with
  | [] => True
  | (a, b) :: rest =>
      (e - overlap <= a <= e /\ 0 <= a <= b /\ b <= n)
      /\ seamless overlap n b rest
  end.

(** Where the last window ends ([e] when there is none). *)
Fixpoint last_end (e : Z) (spans : list (Z * Z)) : Z :=
  match spans with
  | [] => e
  | (_, b) :: rest => last_end b rest
  end.

(** The chunks are the windows [spans] of [text]. *)
Definition cut_at (text : str) (spans : list (Z * Z)) (chunks : list str)
  : Prop :=
  chunks = (fun span => slice text (fst span) (snd span)) <$> spans.

(** The windows leave no position of [text] out. *)
Definition covers (text : str) (spans : list (Z * Z)) : Prop :=
  forall i, 0 <= i < len text ->
            exists a b, (a, b) ∈ spans /\ a <= i < b.

(** The text rebuilt from the chunks: each chunk is laid over [acc]
    from the position where its window begins, which drops the
    characters that the chunk repeats. *)
Fixpoint stitch (acc : str) (spans : list (Z * Z)) (chunks : list str)
  : str :=
  match spans, chunks with
  | (a, _) :: spans', chunk :: chunks' =>
      stitch (take (Z.to_nat a) acc ++ chunk) spans' chunks'
  | _, _ => acc
  end.

Definition within (bound : Z) (chunks : list str) : Prop :=
  Forall (fun chunk => len chunk <= bound) chunks.

Definition emitted (st : loop_state) : list str :=
  match st with
  | Running _ chunks => chunks
  | Finished chunks => chunks
  end.

(** The loop invariant of the size bound: the cursor is not negative
    and no chunk is longer than the window. *)
Definition sized (self : t) (st : loop_state) : Prop :=
  within (max_chunk_size self) (emitted st)
  /\ match st with
     | Running start _ => 0 <= start
     | Finished _ => True
     end.

(** The loop invariant of the coverage: the chunks are seamless
    windows from the start of the text; the cursor is where the last
    one ended or at most [overlap] characters earlier, and the loop
    ends only where the text ends. *)
Definition traced (self : t) (text : str) (st : loop_state) : Prop :=
  exists spans,
    cut_at text spans (emitted st)
    /\ seamless (overlap self) (len text) 0 spans
    /\ match st with
       | Running start _ =>
           0 <= start
           /\ last_end 0 spans - overlap self <= start <= last_end 0 spans
       | Finished _ => last_end 0 spans = len text
       end.

End ChunkSpec.

(** ** Concrete runs *)

Module Examples.
Import Py HierarchicalMerger.

Definition A : str := lit "A".
Definition B : str := lit "B".
Definition C : str := lit "C".
Definition D : str := lit "D".
Definition E : str := lit "E".

(** A service that answers every request with the text it was given,
    futures that complete in submission order, no shuffling. *)
Definition steady : Env :=
  MkEnv (fun _ _ text _ => Some text)
        (fun _ n => seq 0 n) (fun _ _ => Permutation_refl _)
        (fun l => l) (fun _ => Permutation_refl _)
        false.

(** A service that is down. *)
Definition dead : Env :=
  MkEnv (fun _ _ _ _ => None)
        (fun _ n => seq 0 n) (fun _ _ => Permutation_refl _)
        (fun l => l) (fun _ => Permutation_refl _)
        false.

(** A service that fails the first request of the first round only. *)
Definition flaky : Env :=
  MkEnv (fun r i text _ =>
           if (Nat.eqb r 0 && Nat.eqb i 0)%bool then None else Some text)
        (fun _ n => seq 0 n) (fun _ _ => Permutation_refl _)
        (fun l => l) (fun _ => Permutation_refl _)
        false.

(** Shuffling enabled, with a generator that happens to reverse. *)
Definition reversing : Env :=
  MkEnv (fun _ _ text _ => Some text)
        (fun _ n => seq 0 n) (fun _ _ => Permutation_refl _)
        (@rev str) (fun l => Permutation_sym (Permutation_rev l))
        true.

(** A chunker whose overlap is as large as its window, and a text of
    thirty letters. *)
Definition stalled : SmartChunker.t := SmartChunker.Make 10 10 None.
Definition thirty : str := lit "abcdefghijklmnopqrstuvwxyzabcd".

(** A chunker with a window of ten characters and an overlap of two. *)
Definition small : SmartChunker.t := SmartChunker.Make 10 2 None.
Definition sentence : str :=
  lit "hello world, this is a test. And more text here; fine".

(** A store with the caller's list at address 1, and one with
    another list beside it. *)
Definition holding (documents : list str) : store := {[ 1%nat := documents ]}.
Definition holding_two (documents other : list str) : store :=
  <[ 2%nat := other ]> (holding documents).

End Examples.

(** ** Vocabulary of the further statements *)

Module MoreExamples.
Import Py HierarchicalMerger.

(** A service that answers every request with the text it was given,
    and futures that complete in the reverse of the submission order. *)
Definition backwards : Env :=
  MkEnv (fun _ _ text _ => Some text)
        (fun _ n => rev (seq 0 n))
        (fun _ n => Permutation_sym (Permutation_rev (seq 0 n)))
        (fun l => l) (fun _ => Permutation_refl _)
        false.

(** A summary of three lines, one of them a bullet already, with a
    blank line and stray spaces; and its bullets. *)
Definition notes : str :=
  lit "one" ++ [LF] ++ lit " - two" ++ [LF; LF] ++ lit "three ".
Definition notes_bulleted : str :=
  lit "- one" ++ [LF] ++ lit "- two" ++ [LF] ++ lit "- three".

(** A chunker with a window of 200 characters and an overlap of 20,
    and a text of 120 characters. *)
Definition roomy : SmartChunker.t := SmartChunker.Make 200 20 None.
Definition paragraph : str :=
  lit "The quick brown fox jumps over the lazy dog. "
  ++ lit "Pack my box with five dozen liquor jugs! "
  ++ lit "How vexingly quick daft zebras jump?".

End MoreExamples.

Module MergeSpecMore.
Import Py HierarchicalMerger.



End MergeSpecMore.


Module TextSpec.
Import Py.

(** [well_spaced after_space t]: every whitespace character of [t] is
    a space that follows a character that is none and is followed by
    one; [after_space] tells that a space comes just before [t]. *)
Fixpoint well_spaced (after_space : bool) (t : str) : bool :=
  match t with
  | [] => negb after_space
  | c :: t' =>
      if isspace c
      then Ascii.eqb c " " && negb after_space && well_spaced true t'
      else well_spaced false t'
  end.

(** [s] is not empty and neither begins nor ends with whitespace. *)
Definition trimmed (s : str) : Prop :=
  (exists c, head s = Some c /\ isspace c = false)
  /\ (exists d, last s = Some d /\ isspace d = false).

(** [sub] occurs in [s] at position [j]. *)
Definition occurs_at (s sub : str) (j : Z) : Prop :=
  slice s j (j + len sub) = sub.

(** [sep] occurs at [j] inside the window from [start] to [end_], at a
    position past 60% of the window size. *)
Definition qualifies (self : SmartChunker.t) (text : str) (start end_ : Z)
    (sep : str) (j : Z) : Prop :=
  start <= j /\ j + len sep <= end_ /\ occurs_at text sep j
  /\ 3 * SmartChunker.max_chunk_size self < 5 * (j - start).

End TextSpec.

(** ** helpers.py *)

Module Helpers.
Import Py.

(** [s.split(sep)] for a separator of one character. *)
Fixpoint split_on (sep : ascii) (s : str) : list str :=
  match s with
  | [] => [[]]
  | c :: s' =>
      if Ascii.eqb c sep then [] :: split_on sep s'
      else match split_on sep s' with
           | piece :: pieces => (c :: piece) :: pieces
           | [] => [[c]]
           end
  end.

(** The loop [for line in lines] of the bullets style. *)
Fixpoint bullet_points (lines : list str) : list str :=
  match lines with
  | [] => []
  | line :: lines' =>
      let line := strip line in
      if SmartChunker.nonempty line && negb (startswith line (lit "- "))
      then (lit "- " ++ line) :: bullet_points lines'
      else if SmartChunker.nonempty line
      then line :: bullet_points lines'
      else bullet_points lines'
  end.

Definition format_final_summary (summary style : str) : str :=
  if bool_decide (style = lit "bullets") then
    let lines := split_on LF summary in
    join [LF] (bullet_points lines)
  else summary.

End Helpers.

(** ** pipeline.py *)

Module SummaryPipeline.
Import Py HierarchicalMerger Helpers.

(** What [self.settings] gives the pipeline; [OUTPUT_FILE] may be
    absent. *)
Record Settings := MkSettings {
  FINAL_STYLE : str;
  OUTPUT_FILE : option str
}.

Inductive failure :=
| Core (e : exn)
| OSError.

(** The result of a method of the pipeline. *)
Inductive outcome (A : Type) :=
| Done (a : A)
| Failed (e : failure)
| Unfinished.
Arguments Done {A} a.
Arguments Failed {A} e.
Arguments Unfinished {A}.

Definition lift {A} (m : exec A) : outcome A :=
  match m with
  | Returns a => Done a
  | Raises e => Failed (Core e)
  | OutOfFuel => Unfinished
  end.

Definition and_then {A B} (m : outcome A) (k : A -> outcome B) : outcome B :=
  match m with
  | Done a => k a
  | Failed e => Failed e
  | Unfinished => Unfinished
  end.

(** What a run has done besides returning: the files written, with
    their content, and the [summarize] calls. *)
Record Effects := MkEffects {
  written : list (str * str);
  summarize_calls : list Call
}.

(** The truth value of a list or of a string. *)
Definition truthy {A} (l : list A) : bool :=
  match l with
  | [] => false
  | _ => true
  end.

(** [all_chunks.extend(chunks)]. *)
Definition extend (h : store) (l : ref) (xs : list str) : store :=
  <[l := deref h l ++ xs]> h.

(** The loop [for _, content in documents]. *)
Fixpoint gather (fuel : nat) (chunker : SmartChunker.t) (h : store)
    (all_chunks : ref) (documents : list (str * str)) : exec store :=
  match documents with
  | [] => Returns h
  | (_, content) :: documents' =>
      chunks ← SmartChunker.chunk_document fuel chunker content 100;
      let h := if truthy chunks then extend h all_chunks chunks else h in
      gather fuel chunker h all_chunks documents'
  end.

(** [_summarize_documents(self, documents, save_to)].  [can_write path
    content] tells whether [open(path, "w")] and the write succeed. *)
Definition _summarize_documents (fuel : nat) (env : Env)
    (can_write : str -> str -> bool) (chunker : SmartChunker.t)
    (settings : Settings) (h : store) (documents : list (str * str))
    (save_to : option str) : outcome (str * Effects * store) :=
  if negb (truthy documents) then Done ([], MkEffects [] [], h)
  else
    let '(all_chunks, h) := new_list h in
    and_then (lift (gather fuel chunker h all_chunks documents)) (fun h =>
    if negb (truthy (deref h all_chunks)) then Done ([], MkEffects [] [], h)
    else
      and_then (lift (merge_documents env h all_chunks)) (fun '(m, h) =>
      let final_summary := result m in
      let formatted :=
        format_final_summary final_summary (FINAL_STYLE settings) in
      let save_to :=
        match save_to, OUTPUT_FILE settings with
        | None, Some output_file =>
            if truthy output_file then Some output_file else save_to
        | _, _ => save_to
        end in
      match save_to with
      | Some path =>
          if truthy path then
            if can_write path formatted
            then Done (formatted, MkEffects [(path, formatted)] (calls m), h)
            else Failed OSError
          else Done (formatted, MkEffects [] (calls m), h)
      | None => Done (formatted, MkEffects [] (calls m), h)
      end)).

Definition summarize_documents := _summarize_documents.

(** [summarize_texts(self, texts, save_to)]: the texts that are not
    blank, each as a document without a path. *)
Definition summarize_texts (fuel : nat) (env : Env)
    (can_write : str -> str -> bool) (chunker : SmartChunker.t)
    (settings : Settings) (h : store) (texts : list str)
    (save_to : option str) : outcome (str * Effects * store) :=
  let documents :=
    (fun t => ([], t))
      <$> filter (fun t => truthy t && truthy (strip t) = true) texts in
  _summarize_documents fuel env can_write chunker settings h documents save_to.

End SummaryPipeline.

Module FormatSpec.
Import Py TextSpec.

Definition no_newline (s : str) : Prop := LF ∉ s.

(** A line of the bullets style: it begins with ["- "], neither
    begins nor ends with whitespace, and holds no line feed. *)
Definition bullet_line (line : str) : Prop :=
  startswith line (lit "- ") = true /\ trimmed line /\ no_newline line.

End FormatSpec.

(** ** Properties of the merger *)

Module MergerProofs.
Import Py HierarchicalMerger MergeSpec Examples.

Lemma adjacent_pairs_length l :
  length (adjacent_pairs l) = (length l / 2)%nat.
Proof.
  induction l as [l IH] using (induction_ltof1 _ (@length _)).
  destruct l as [|a [|b rest]]; [reflexivity..|].
  cbn [adjacent_pairs length]. rewrite IH by (unfold ltof; simpl; lia).
  change (S (S (length rest))) with (1 * 2 + length rest)%nat.
  rewrite Nat.div_add_l by lia. lia.
Qed.

Lemma adjacent_pairs_snoc front x :
  Nat.Even (length front) ->
  adjacent_pairs (front ++ [x]) = adjacent_pairs front.
Proof.
  induction front as [front IH] using (induction_ltof1 _ (@length _)).
  intros Hev. destruct front as [|a [|b rest]]; [reflexivity| |].
  - destruct Hev as [k Hk]. simpl in Hk. lia.
  - cbn [app adjacent_pairs]. f_equal. apply IH.
    + unfold ltof. simpl. lia.
    + destruct Hev as [k Hk]. exists (k - 1)%nat. simpl in Hk. lia.
Qed.

(** The index loop of [_create_pairs] forms the adjacent pairs and
    raises nothing. *)
Lemma for_each_pairs documents l j m :
  drop (2 * j) documents = l ->
  (2 * m <= length l)%nat ->
  for_each (fun i => a ← index documents i;
                     b ← index documents (i + 1);
                     Returns [a; b])
           ((fun k => (0 + k * 2)%nat) <$> seq j m)
  = Returns (adjacent_pairs (take (2 * m) l)).
Proof.
  revert l j. induction m as [|m IH]; intros l j Hl Hm; [reflexivity|].
  destruct l as [|a [|b rest]]; [simpl in Hm; lia..|].
  cbn [seq fmap list_fmap for_each].
  assert (Ha : documents !! (0 + j * 2)%nat = Some a).
  { replace (0 + j * 2)%nat with (2 * j + 0)%nat by lia.
    rewrite <- lookup_drop, Hl. reflexivity. }
  assert (Hb : documents !! (0 + j * 2 + 1)%nat = Some b).
  { replace (0 + j * 2 + 1)%nat with (2 * j + 1)%nat by lia.
    rewrite <- lookup_drop, Hl. reflexivity. }
  unfold index at 1 2. rewrite Ha, Hb. cbn [bind mbind exec_bind].
  change (list_fmap nat nat ?f (seq (S j) m)) with (f <$> seq (S j) m).
  rewrite (IH rest (S j)).
  - replace (2 * S m)%nat with (S (S (2 * m))) by lia. reflexivity.
  - replace (2 * S j)%nat with (2 * j + 2)%nat by lia.
    rewrite <- drop_drop, Hl. reflexivity.
  - simpl in Hm. lia.
Qed.

Lemma adjacent_pairs_take_even l :
  adjacent_pairs (take (2 * (length l / 2)) l) = adjacent_pairs l.
Proof.
  induction l as [l IH] using (induction_ltof1 _ (@length _)).
  destruct l as [|a [|b rest]]; [reflexivity..|].
  cbn [length].
  change (S (S (length rest))) with (1 * 2 + length rest)%nat.
  rewrite Nat.div_add_l by lia.
  replace (2 * (1 + length rest / 2))%nat
    with (S (S (2 * (length rest / 2)))) by lia.
  cbn [take adjacent_pairs]. f_equal. apply IH. unfold ltof. simpl. lia.
Qed.

Lemma create_pairs_spec documents :
  _create_pairs documents = Returns (adjacent_pairs documents).
Proof.
  unfold _create_pairs, range.
  replace ((length documents - 1 - 0 + 2 - 1) / 2)%nat
    with (length documents / 2)%nat.
  - rewrite (for_each_pairs documents documents 0 (length documents / 2)).
    + by rewrite adjacent_pairs_take_even.
    + reflexivity.
    + pose proof (Nat.Div0.mul_div_le (length documents) 2). lia.
  - destruct documents as [|a l]; [reflexivity|].
    cbn [length]. f_equal. lia.
Qed.

Lemma omap_lookup_seq {A} (l : list A) j :
  omap (fun i => l !! i) (seq j (length l - j)) = drop j l.
Proof.
  remember (length l - j)%nat as k eqn:Hk. revert j Hk.
  induction k as [|k IH]; intros j Hk; simpl.
  - rewrite drop_ge by lia. reflexivity.
  - destruct (lookup_lt_is_Some_2 l j) as [x Hx]; [lia|].
    rewrite Hx. rewrite IH by lia. symmetry. by apply drop_S.
Qed.

(** Whatever the order of completion, every future is collected once. *)
Lemma completed_perm {A} (l : list A) (order : list nat) :
  order ≡ₚ seq 0 (length l) ->
  omap (fun i => l !! i) order ≡ₚ l.
Proof.
  intros ->. pose proof (omap_lookup_seq l 0) as H.
  rewrite Nat.sub_0_r in H. by rewrite H.
Qed.

Lemma odd_tail_cases level :
  ((length level mod 2 =? 1)%nat = true
   /\ exists unpaired,
       index_from_end level 1 = Returns unpaired
       /\ last level = Some unpaired
       /\ odd_tail level = [unpaired])
  \/ ((length level mod 2 =? 1)%nat = false /\ odd_tail level = []).
Proof.
  unfold odd_tail. destruct (length level mod 2 =? 1)%nat eqn:E; [left|by right].
  split; [done|]. unfold index_from_end, index.
  destruct level as [|a l _] using rev_ind; [done|].
  exists a. rewrite length_app, last_snoc. cbn [length].
  replace (Nat.leb 1 (length l + 1)) with true
    by (symmetry; apply Nat.leb_le; lia).
  cbn [andb Nat.ltb Nat.leb].
  replace (length l + 1 - 1)%nat with (length l + 0)%nat by lia.
  by rewrite lookup_app_r, Nat.add_0_r, Nat.sub_diag by lia.
Qed.

Lemma deref_lookup h l v : h !! l = Some v -> deref h l = v.
Proof. apply lookup_total_correct. Qed.

(** Collecting the futures appends the summaries of those that
    succeeded to [next_level] and writes nowhere else. *)
Lemma foldl_collect next_level h v l :
  h !! next_level = Some v ->
  foldl (collect next_level) h l = <[next_level := v ++ successes l]> h.
Proof.
  revert h v. induction l as [|o l IH]; intros h v Hv; cbn [foldl].
  - cbn. rewrite app_nil_r. symmetry. by apply insert_id.
  - destruct o as [s| |]; cbn [collect]; [|by apply IH..].
    unfold append. rewrite (deref_lookup _ _ _ Hv).
    rewrite (IH _ (v ++ [s])) by apply lookup_insert_eq.
    rewrite insert_insert_eq. cbn. by rewrite <- app_assoc.
Qed.

(** A round raises nothing.  It leaves in a new list the summaries of
    the pairs that succeeded, in completion order, then the unpaired
    document; it writes to no other list, and it has made one call
    per pair. *)
Lemma merge_round_spec env r h current_level level :
  h !! current_level = Some level ->
  merge_round env r h current_level
  = Returns (fresh (dom h),
             <[fresh (dom h) := next_level_of env r level]> h,
             requests env r level).
Proof.
  intros Hcur. unfold merge_round, new_list.
  set (next_level := fresh (dom h)).
  assert (Hne : next_level <> current_level).
  { intros E. apply (is_fresh (dom h)), elem_of_dom. exists level.
    fold next_level. by rewrite E. }
  assert (Hd : forall v, deref (<[next_level := v]> h) current_level = level).
  { intros v. apply deref_lookup. by rewrite lookup_insert_ne. }
  rewrite Hd, create_pairs_spec. cbn [mbind exec_bind bind].
  rewrite (foldl_collect next_level _ []) by apply lookup_insert_eq.
  rewrite insert_insert_eq, Hd. cbn [app].
  set (futures := imap _ _).
  assert (Hc : omap (fun i => snd <$> futures !! i)
                 (as_completed env r (length (adjacent_pairs level)))
               = completed env r level).
  { apply list_omap_ext, Forall_Forall2_diag, Forall_forall.
    intros i _. unfold outcomes, futures. rewrite !list_lookup_imap.
    by destruct (adjacent_pairs level !! i). }
  rewrite Hc. fold (survivors env r level).
  assert (Hr : fst <$> futures = requests env r level).
  { unfold futures, requests. apply list_eq. intros i.
    rewrite list_lookup_fmap, !list_lookup_imap.
    by destruct (adjacent_pairs level !! i). }
  rewrite Hr. unfold next_level_of.
  destruct (odd_tail_cases level) as [(-> & x & -> & _ & ->)|(-> & ->)].
  - cbn [mbind exec_bind bind]. unfold append.
    rewrite (deref_lookup _ _ (survivors env r level))
      by apply lookup_insert_eq.
    by rewrite insert_insert_eq.
  - cbn [mbind exec_bind bind]. by rewrite app_nil_r.
Qed.

Lemma survivors_perm env r level :
  survivors env r level ≡ₚ successes (outcomes env r level).
Proof.
  unfold survivors, successes, completed.
  apply omap_Permutation, completed_perm.
  unfold outcomes. rewrite length_imap. apply as_completed_perm.
Qed.

Lemma successes_failures l :
  (length (successes l) + failures l = length l)%nat.
Proof.
  unfold successes, failures. induction l as [|o l IH]; [reflexivity|].
  destruct o; cbn [omap list_omap summary_of];
    [rewrite filter_cons_False by (simpl; congruence)
    |rewrite filter_cons_True by reflexivity..];
    cbn [length]; lia.
Qed.

Lemma odd_tail_length level :
  length (odd_tail level) = (length level mod 2)%nat.
Proof.
  unfold odd_tail. pose proof (Nat.mod_upper_bound (length level) 2 ltac:(lia)).
  destruct (Nat.eqb_spec (length level mod 2) 1) as [E|E]; [|cbn [length]; lia].
  rewrite E. destruct level using rev_ind; [discriminate|].
  by rewrite last_snoc.
Qed.

Lemma ceil_half_split n : ceil_half n = (n / 2 + n mod 2)%nat.
Proof.
  unfold ceil_half. pose proof (Nat.div_mod_eq n 2).
  pose proof (Nat.mod_upper_bound n 2 ltac:(lia)).
  assert (n mod 2 = 0 \/ n mod 2 = 1)%nat as [E|E] by lia; rewrite E.
  - symmetry. apply (Nat.div_unique _ _ _ 1); lia.
  - symmetry. apply (Nat.div_unique _ _ _ 0); lia.
Qed.

(** The size of the next level: half the level, rounded up, less one
    for every pair whose call failed. *)
Lemma next_level_length env r level :
  (length (next_level_of env r level) + failures (outcomes env r level)
   = ceil_half (length level))%nat.
Proof.
  unfold next_level_of.
  rewrite length_app, survivors_perm, odd_tail_length.
  pose proof (successes_failures (outcomes env r level)) as H.
  unfold outcomes at 3 in H. rewrite length_imap, adjacent_pairs_length in H.
  rewrite ceil_half_split. lia.
Qed.

Lemma ceil_half_lt n : (1 < n -> 1 <= ceil_half n < n)%nat.
Proof.
  intros Hn. rewrite ceil_half_split. pose proof (Nat.div_mod_eq n 2).
  pose proof (Nat.mod_upper_bound n 2 ltac:(lia)). lia.
Qed.

Lemma log2_up_ceil_half n :
  (1 < n)%nat -> Nat.log2_up n = S (Nat.log2_up (ceil_half n)).
Proof.
  intros Hn. rewrite ceil_half_split. pose proof (Nat.div_mod_eq n 2) as E.
  pose proof (Nat.mod_upper_bound n 2 ltac:(lia)).
  set (k := (n / 2)%nat) in *.
  assert (n mod 2 = 0 \/ n mod 2 = 1)%nat as [E'|E'] by lia;
    rewrite E' in *.
  - rewrite Nat.add_0_r in *. rewrite E. apply Nat.log2_up_double. lia.
  - rewrite E, !Nat.log2_up_eqn by lia.
    replace (Nat.pred (2 * k + 1)) with (2 * k)%nat by lia.
    replace (Nat.pred (k + 1)) with k by lia.
    rewrite Nat.log2_double by lia. reflexivity.
Qed.

(** The loop ends within [length level] tests and raises nothing.  It
    keeps every property of the triple of round, level and log that
    the rounds preserve, and every list of the store it started from. *)
Lemma merge_loop_invariant env (P : nat -> list str -> list Call -> Prop) :
  (forall r level log,
      P r level log -> (1 < length level)%nat ->
      P (S r) (next_level_of env r level) (log ++ requests env r level)) ->
  forall fuel r h current_level level log,
    h !! current_level = Some level ->
    (length level <= fuel)%nat -> (1 <= fuel)%nat -> P r level log ->
    exists r' current_level' h' level' log',
      merge_loop fuel env r h current_level log
      = Returns (r', current_level', h', log')
      /\ h' !! current_level' = Some level'
      /\ (length level' <= 1)%nat /\ P r' level' log' /\ h ⊆ h'.
Proof.
  intros Hstep fuel.
  induction fuel as [|fuel IH]; intros r h cur level log Hcur Hf H1 HP; [lia|].
  cbn [merge_loop]. rewrite (deref_lookup _ _ _ Hcur).
  destruct (Nat.ltb_spec 1 (length level)) as [Hl|Hl].
  - rewrite (merge_round_spec _ _ _ _ _ Hcur). cbn [mbind exec_bind bind].
    pose proof (next_level_length env r level).
    pose proof (ceil_half_lt _ Hl).
    destruct (IH (S r) (<[fresh (dom h) := next_level_of env r level]> h)
                (fresh (dom h)) (next_level_of env r level)
                (log ++ requests env r level))
      as (r' & cur' & h' & level' & log' & -> & ? & ? & ? & Hsub);
      [apply lookup_insert_eq|lia|lia|by apply Hstep|].
    eexists _, _, _, _, _. split; [done|]. repeat (split; [done|]).
    etrans; [|exact Hsub]. apply insert_subseteq.
    apply not_elem_of_dom, is_fresh.
  - eexists _, _, _, _, _. split; [done|]. repeat (split; [done|lia|done|..]).
    split; [done|]. split; [lia|]. done.
Qed.

Lemma initial_level_perm env documents :
  initial_level env documents ≡ₚ documents.
Proof.
  unfold initial_level. destruct (SHUFFLE_CHUNKS env); [|done].
  apply shuffle_perm.
Qed.

Lemma shuffled_lookup env (h : store) (d : ref) documents :
  h !! d = Some documents ->
  (if SHUFFLE_CHUNKS env then <[d := shuffle env documents]> h else h) !! d
  = Some (initial_level env documents).
Proof.
  intros Hd. unfold initial_level.
  destruct (SHUFFLE_CHUNKS env); [apply lookup_insert_eq|done].
Qed.

(** [merge_documents] on a list of two documents or more: it raises
    nothing, whatever the rounds preserve holds when it returns, the
    caller's list holds the level of the first round, and every other
    list of the caller is as it was. *)
Lemma merge_documents_invariant env h d documents
    (P : nat -> list str -> list Call -> Prop) :
  h !! d = Some documents ->
  (1 < length documents)%nat ->
  P 0%nat (initial_level env documents) [] ->
  (forall r level log,
      P r level log -> (1 < length level)%nat ->
      P (S r) (next_level_of env r level) (log ++ requests env r level)) ->
  exists r level log h',
    merge_documents env h d
    = Returns (MkMerged (first_or_empty level) r level log, h')
    /\ (length level <= 1)%nat /\ P r level log
    /\ h' !! d = Some (initial_level env documents)
    /\ forall l v, l <> d -> h !! l = Some v -> h' !! l = Some v.
Proof.
  intros Hd Hlen H0 Hstep. unfold merge_documents.
  rewrite (deref_lookup _ _ _ Hd).
  destruct (Nat.eqb_spec (length documents) 0) as [E|_]; [lia|].
  destruct (Nat.eqb_spec (length documents) 1) as [E|_]; [lia|].
  pose proof (shuffled_lookup env h d documents Hd) as Hd1.
  set (h1 := if SHUFFLE_CHUNKS env then _ else h) in *.
  rewrite (deref_lookup _ _ _ Hd1).
  destruct (merge_loop_invariant env P Hstep
              (length (initial_level env documents)) 0%nat h1 d
              (initial_level env documents) [])
    as (r & cur & h' & level & log & -> & Hcur & Hl & HP & Hsub);
    [done|lia|rewrite initial_level_perm; lia|done|].
  exists r, level, log, h'. cbn [mbind exec_bind bind].
  rewrite (deref_lookup _ _ _ Hcur). split; [by destruct level|].
  split; [done|]. split; [done|]. split; [by eapply lookup_weaken|].
  intros l v Hne Hl'. eapply lookup_weaken; [|exact Hsub].
  unfold h1. destruct (SHUFFLE_CHUNKS env); [|done].
  by rewrite lookup_insert_ne.
Qed.

Lemma merge_documents_short env h d documents :
  h !! d = Some documents ->
  (length documents <= 1)%nat ->
  merge_documents env h d
  = Returns (MkMerged (first_or_empty documents) 0 documents [], h).
Proof.
  intros Hd Hlen. unfold merge_documents. rewrite (deref_lookup _ _ _ Hd).
  destruct documents as [|only [|? ?]]; [reflexivity..|simpl in Hlen; lia].
Qed.

(** No exception leaves [merge_documents], and its loop ends. *)
Lemma merge_documents_total env h d documents :
  h !! d = Some documents ->
  exists m h', merge_documents env h d = Returns (m, h').
Proof.
  intros Hd. destruct (Nat.le_gt_cases (length documents) 1) as [H|H].
  - rewrite (merge_documents_short _ _ _ _ Hd) by done. eauto.
  - destruct (merge_documents_invariant env h d documents
                (fun _ _ _ => True) Hd)
      as (? & ? & ? & ? & -> & _); eauto.
Qed.

Lemma reaches_documents env documents r level :
  reaches env documents r level -> (1 < length documents)%nat.
Proof. induction 1; done. Qed.

(** The round that follows is the same from every store. *)
Lemma reaches_step env documents r level :
  reaches env documents r level ->
  (1 < length level)%nat ->
  reaches env documents (S r) (next_level_of env r level).
Proof.
  intros Hreach Hl.
  apply (reaches_next env documents r level {[ 0%nat := level ]} 0%nat
           _ _ _ _ Hreach Hl (lookup_singleton_eq _ _)
           (merge_round_spec _ _ _ _ _ (lookup_singleton_eq _ _))).
  apply lookup_insert_eq.
Qed.

(** A run that tests its loop for round [r] with [level] continues
    from there as the loop started on a list holding [level] does. *)
Lemma reaches_loop env documents r level :
  reaches env documents r level ->
  forall h d,
    h !! d = Some (initial_level env documents) ->
    exists k log h_r current_level,
      (k + length level <= length documents)%nat
      /\ h_r !! current_level = Some level
      /\ forall fuel,
          merge_loop (k + fuel) env 0 h d []
          = merge_loop fuel env r h_r current_level log.
Proof.
  induction 1 as [Hd|r level h0 cur0 nl h0' made next _ IH Hl Hcur0 Hround Hnext];
    intros h d Hh.
  - exists 0%nat, [], h, d. split; [|done]. rewrite initial_level_perm. lia.
  - rewrite (merge_round_spec _ _ _ _ _ Hcur0) in Hround.
    injection Hround as <- <- <-. rewrite lookup_insert_eq in Hnext.
    injection Hnext as <-.
    destruct (IH h d Hh) as (k & log & h_r & cur & Hk & Hcur & Hloop).
    exists (S k), (log ++ requests env r level),
      (<[fresh (dom h_r) := next_level_of env r level]> h_r),
      (fresh (dom h_r)).
    split; [|split; [apply lookup_insert_eq|]].
    + pose proof (next_level_length env r level).
      pose proof (ceil_half_lt _ Hl). lia.
    + intros fuel. replace (S k + fuel)%nat with (k + S fuel)%nat by lia.
      rewrite Hloop. cbn [merge_loop]. rewrite (deref_lookup _ _ _ Hcur).
      destruct (Nat.ltb_spec 1 (length level)); [|lia].
      by rewrite (merge_round_spec _ _ _ _ _ Hcur).
Qed.

Lemma merge_documents_from env h d documents r level :
  h !! d = Some documents ->
  reaches env documents r level ->
  exists fuel log h_r current_level,
    (length level <= fuel)%nat
    /\ h_r !! current_level = Some level
    /\ merge_documents env h d
       = ('(r', current_level', h', log') ←
            merge_loop fuel env r h_r current_level log;
          Returns (MkMerged (first_or_empty (deref h' current_level'))
                     r' (deref h' current_level') log', h')).
Proof.
  intros Hd Hreach. pose proof (reaches_documents _ _ _ _ Hreach) as Hlen.
  pose proof (shuffled_lookup env h d documents Hd) as Hd1.
  destruct (reaches_loop _ _ _ _ Hreach _ _ Hd1)
    as (k & log & h_r & cur & Hk & Hcur & Hloop).
  exists (length documents - k)%nat, log, h_r, cur.
  split; [lia|]. split; [done|].
  unfold merge_documents. rewrite (deref_lookup _ _ _ Hd).
  destruct (Nat.eqb_spec (length documents) 0) as [E|_]; [lia|].
  destruct (Nat.eqb_spec (length documents) 1) as [E|_]; [lia|].
  rewrite (deref_lookup _ _ _ Hd1).
  assert (length (initial_level env documents) = length documents) as ->
    by (by rewrite initial_level_perm).
  replace (length documents) with (k + (length documents - k))%nat at 1
    by lia.
  rewrite Hloop.
  destruct (merge_loop _ _ _ _ _ _) as [[[[r' cur'] h'] log']| |]; [|done..].
  cbn [mbind exec_bind bind]. by destruct (deref h' cur').
Qed.

Lemma no_failures_iff l :
  failures l = 0%nat <-> Forall (fun o => failed o = false) l.
Proof.
  unfold failures. induction l as [|o l IH]; [by split|].
  destruct (failed o) eqn:E.
  - rewrite filter_cons_True by done. split; [done|].
    intros H. apply Forall_cons_1 in H as [? _]. congruence.
  - rewrite filter_cons_False by congruence. rewrite IH. split.
    + by constructor.
    + intros H. by apply Forall_cons_1 in H as [_ ?].
Qed.

Lemma all_failures_successes l :
  Forall (fun o => failed o = true) l -> successes l = [].
Proof.
  unfold successes. induction 1 as [|o l Ho _ IH]; [done|].
  destruct o; [discriminate|exact IH..].
Qed.

Lemma never_fails_outcomes env r level :
  never_fails env -> failures (outcomes env r level) = 0%nat.
Proof.
  intros Hnf. apply no_failures_iff, Forall_lookup_2. intros i o.
  unfold outcomes. rewrite list_lookup_imap.
  destruct (adjacent_pairs level !! i) as [pair|]; [|done].
  intros [= <-]. unfold _merge_pair, summarize. cbn [snd].
  by destruct (Hnf r i (join [LF; LF] pair) false) as [? ->].
Qed.

Lemma requests_not_final env r level :
  Forall (fun c => call_is_final c = false) (requests env r level).
Proof.
  apply Forall_lookup_2. intros i c. unfold requests.
  rewrite list_lookup_imap.
  destruct (adjacent_pairs level !! i); [|done]. by intros [= <-].
Qed.

(** C1.  A round none of whose calls fails turns a level of [n]
    documents into one of [ceil(n/2)]; and a run on a non-empty pool
    of [n] documents in which no call fails makes [ceil(log2 n)]
    rounds and ends, without raising, on a level of one document. *)
Theorem merge_reduction_size_law env r (h : store) (current_level d : ref)
    level documents :
  (h !! current_level = Some level ->
   failures (outcomes env r level) = 0%nat ->
   exists next_level h' made level',
     merge_round env r h current_level = Returns (next_level, h', made)
     /\ h' !! next_level = Some level'
     /\ length level' = ceil_half (length level))
  /\ (h !! d = Some documents ->
      documents <> [] ->
      (forall r' level',
          reaches env documents r' level' -> (1 < length level')%nat ->
          failures (outcomes env r' level') = 0%nat) ->
      exists m h',
        merge_documents env h d = Returns (m, h')
        /\ rounds m = Nat.log2_up (length documents)
        /\ length (final_level m) = 1%nat).
Proof.
  split.
  - intros Hcur Hok. eexists _, _, _, _.
    split; [by apply merge_round_spec|]. split; [apply lookup_insert_eq|].
    pose proof (next_level_length env r level). lia.
  - intros Hd Hne Hok.
    destruct (Nat.le_gt_cases (length documents) 1) as [Hlen|Hlen].
    + rewrite (merge_documents_short _ _ _ _ Hd) by done.
      eexists _, _. split; [done|].
      destruct documents as [|? [|? ?]]; [done|done|simpl in Hlen; lia].
    + destruct (merge_documents_invariant env h d documents
        (fun r level _ =>
           reaches env documents r level
           /\ (1 <= length level)%nat
           /\ (r + Nat.log2_up (length level)
               = Nat.log2_up (length documents))%nat) Hd Hlen)
        as (r' & level' & log' & h' & -> & Hl & (_ & Hl' & Hr') & _).
      * split; [by constructor|]. rewrite initial_level_perm.
        split; [lia|done].
      * intros r0 level0 log0 (Hreach & _ & Hr0) Hl0.
        pose proof (next_level_length env r0 level0) as Hn.
        rewrite (Hok _ _ Hreach Hl0) in Hn.
        pose proof (ceil_half_lt _ Hl0).
        split; [by apply reaches_step|]. split; [lia|].
        rewrite (log2_up_ceil_half _ Hl0) in Hr0.
        replace (length (next_level_of env r0 level0))
          with (ceil_half (length level0)) by lia.
        lia.
      * eexists _, _. split; [done|]. cbn [rounds final_level].
        assert (length level' = 1%nat) as E by lia. split; [|done].
        rewrite E in Hr'. change (Nat.log2_up 1) with 0%nat in Hr'. lia.
Qed.

Lemma merge_reduction_size_law_witness :
  (exists next_level h' made level',
      merge_round steady 0 (holding [A; B; C]) 1 = Returns (next_level, h', made)
      /\ h' !! next_level = Some level'
      /\ length level' = ceil_half 3)
  /\ (exists m h',
        merge_documents steady (holding [A; B; C; D; E]) 1 = Returns (m, h')
        /\ rounds m = Nat.log2_up 5
        /\ length (final_level m) = 1%nat).
Proof.
  split.
  - apply (proj1 (merge_reduction_size_law steady 0 (holding [A; B; C]) 1 1
                    [A; B; C] [A; B; C])); reflexivity.
  - apply (proj2 (merge_reduction_size_law steady 0
                    (holding [A; B; C; D; E]) 1 1
                    [A; B; C; D; E] [A; B; C; D; E]));
      [reflexivity|discriminate|].
    intros r level _ _. apply never_fails_outcomes.
    intros ? ? ? ?. eexists. reflexivity.
Defined.

(** C9.  A run of [merge_documents] always returns, and every
    [summarize] call it has made was made with [is_final] false. *)
Theorem is_final_never_set env (h : store) (d : ref) documents :
  h !! d = Some documents ->
  exists m h',
    merge_documents env h d = Returns (m, h')
    /\ Forall (fun c => call_is_final c = false) (calls m).
Proof.
  intros Hd. destruct (Nat.le_gt_cases (length documents) 1) as [Hlen|Hlen].
  - rewrite (merge_documents_short _ _ _ _ Hd) by done.
    eexists _, _. split; [done|]. by constructor.
  - destruct (merge_documents_invariant env h d documents
      (fun _ _ log => Forall (fun c => call_is_final c = false) log) Hd Hlen)
      as (r' & level' & log' & h' & -> & _ & Hlog & _); [by constructor| |].
    + intros r level log Hlog _.
      apply Forall_app. split; [done|apply requests_not_final].
    + eexists _, _. split; done.
Qed.

Lemma is_final_never_set_witness :
  exists m h',
    merge_documents steady (holding [A; B; C; D; E]) 1 = Returns (m, h')
    /\ length (calls m) = 4%nat
    /\ Forall (fun c => call_is_final c = false) (calls m).
Proof.
  destruct (is_final_never_set steady (holding [A; B; C; D; E]) 1
              [A; B; C; D; E] eq_refl) as (m & h' & Hrun & Hcalls).
  exists m, h'. split; [exact Hrun|]. split; [|exact Hcalls].
  vm_compute in Hrun. injection Hrun as <- _. reflexivity.
Defined.

(** C8.  In a round on a level of odd length the last document goes
    to the end of the next level as it is, and the round makes the
    calls, and collects the summaries, of the level without it. *)
Theorem odd_tail_carry_through env r (h : store) (current_level : ref) level :
  h !! current_level = Some level ->
  Nat.Odd (length level) ->
  exists front unpaired next_level h' made,
    level = front ++ [unpaired]
    /\ last level = Some unpaired
    /\ merge_round env r h current_level = Returns (next_level, h', made)
    /\ h' !! next_level = Some (survivors env r front ++ [unpaired])
    /\ made = requests env r front
    /\ length made = (length front / 2)%nat
    /\ next_level_of env r front = survivors env r front.
Proof.
  intros Hcur Hodd. destruct level as [|x front _] using rev_ind.
  { destruct Hodd as [k Hk]. simpl in Hk. lia. }
  assert (Hev : Nat.Even (length front)).
  { destruct Hodd as [k Hk]. rewrite length_app in Hk. simpl in Hk.
    exists k. lia. }
  pose proof (adjacent_pairs_snoc front x Hev) as Hpairs.
  assert (Hev' : (length front mod 2 = 0)%nat).
  { destruct Hev as [k ->]. rewrite Nat.mul_comm. apply Nat.Div0.mod_mul. }
  assert (Hfront : odd_tail front = []).
  { unfold odd_tail. by rewrite Hev'. }
  assert (Hlevel : odd_tail (front ++ [x]) = [x]).
  { unfold odd_tail. rewrite length_app, last_snoc. cbn [length].
    replace ((length front + 1) mod 2)%nat with 1%nat; [done|].
    rewrite <- Nat.Div0.add_mod_idemp_l, Hev'. reflexivity. }
  eexists front, x, _, _, _. split; [done|]. split; [apply last_snoc|].
  split; [by apply merge_round_spec|]. split.
  { rewrite lookup_insert_eq. unfold next_level_of. rewrite Hlevel.
    unfold survivors, completed, outcomes. by rewrite Hpairs. }
  split; [unfold requests; by rewrite Hpairs|]. split.
  - unfold requests. by rewrite Hpairs, length_imap, adjacent_pairs_length.
  - unfold next_level_of. by rewrite Hfront, app_nil_r.
Qed.

Lemma odd_tail_carry_through_witness :
  exists front unpaired next_level h' made,
    [A; B; C] = front ++ [unpaired]
    /\ last [A; B; C] = Some unpaired
    /\ merge_round flaky 1 (holding [A; B; C]) 1
       = Returns (next_level, h', made)
    /\ h' !! next_level = Some (survivors flaky 1 front ++ [unpaired])
    /\ made = requests flaky 1 front
    /\ length made = (length front / 2)%nat
    /\ next_level_of flaky 1 front = survivors flaky 1 front.
Proof.
  apply (odd_tail_carry_through flaky 1 (holding [A; B; C]) 1 [A; B; C]).
  - reflexivity.
  - exists 1%nat. reflexivity.
Defined.

(** C10.  [merge_documents] returns with the caller's list holding the
    same documents: shuffled, when shuffling is enabled and there are
    two documents or more, and as they were when shuffling is disabled
    or there is at most one document.  Every other list of the caller
    is as it was.  A shuffle can change the order. *)
Theorem shuffle_in_place env (h : store) (d : ref) documents :
  h !! d = Some documents ->
  exists m h' after,
    merge_documents env h d = Returns (m, h')
    /\ h' !! d = Some after
    /\ after ≡ₚ documents
    /\ (SHUFFLE_CHUNKS env = true -> (1 < length documents)%nat ->
        after = shuffle env documents)
    /\ (SHUFFLE_CHUNKS env = false \/ (length documents <= 1)%nat ->
        after = documents)
    /\ (forall l v, l <> d -> h !! l = Some v -> h' !! l = Some v)
    /\ exists m' h'',
        merge_documents reversing (holding [A; B]) 1 = Returns (m', h'')
        /\ h'' !! 1%nat = Some [B; A].
Proof.
  intros Hd.
  assert (Hex : exists m' h'',
             merge_documents reversing (holding [A; B]) 1 = Returns (m', h'')
             /\ h'' !! 1%nat = Some [B; A]).
  { eexists _, _. split; [vm_compute; reflexivity|reflexivity]. }
  destruct (Nat.le_gt_cases (length documents) 1) as [Hlen|Hlen].
  - rewrite (merge_documents_short _ _ _ _ Hd) by done.
    eexists _, _, documents. split; [done|]. split; [done|]. split; [done|].
    split; [intros; lia|]. split; [done|]. split; done.
  - destruct (merge_documents_invariant env h d documents
                (fun _ _ _ => True) Hd Hlen)
      as (r' & level' & log' & h' & -> & _ & _ & Hd' & Hframe); [done..|].
    eexists _, _, _. split; [done|]. split; [exact Hd'|].
    split; [apply initial_level_perm|]. unfold initial_level.
    split; [by intros ->|]. split; [intros [->|?]; [done|lia]|].
    split; done.
Qed.

Lemma shuffle_in_place_witness :
  exists m h',
    merge_documents reversing (holding_two [A; B; C] [D; E]) 1
    = Returns (m, h')
    /\ h' !! 1%nat = Some [C; B; A]
    /\ h' !! 2%nat = Some [D; E].
Proof.
  destruct (shuffle_in_place reversing (holding_two [A; B; C] [D; E]) 1
              [A; B; C] eq_refl)
    as (m & h' & after & Hm & Hafter & _ & Hshuffled & _ & Hframe & _).
  exists m, h'. split; [exact Hm|]. split.
  - rewrite Hafter. f_equal. apply Hshuffled; [reflexivity|simpl; lia].
  - apply Hframe; [lia|reflexivity].
Defined.

(** C3, amended.  When every call of a round of a run fails, the
    round leaves in the next level the unpaired document of the level
    and nothing else; the loop ends there and [merge_documents]
    raises nothing: it returns the empty string when the level had
    even length, and the last document of the level when it had odd
    length. *)
Theorem total_unavailability env (h : store) (d : ref) documents r level :
  h !! d = Some documents ->
  reaches env documents r level ->
  (1 < length level)%nat ->
  Forall (fun o => failed o = true) (outcomes env r level) ->
  (forall (h_r : store) (current_level : ref),
      h_r !! current_level = Some level ->
      exists next_level h',
        merge_round env r h_r current_level
        = Returns (next_level, h', requests env r level)
        /\ h' !! next_level = Some (odd_tail level))
  /\ exists m h',
      merge_documents env h d = Returns (m, h')
      /\ rounds m = S r
      /\ final_level m = odd_tail level
      /\ (Nat.Even (length level) -> final_level m = [] /\ result m = [])
      /\ (Nat.Odd (length level) -> last level = Some (result m)).
Proof.
  intros Hd Hreach Hlen Hfail.
  assert (Hnext : next_level_of env r level = odd_tail level).
  { unfold next_level_of. pose proof (survivors_perm env r level) as Hp.
    rewrite (all_failures_successes _ Hfail) in Hp.
    apply Permutation_nil_r in Hp. by rewrite Hp. }
  split.
  { intros h_r cur Hcur. eexists _, _.
    split; [by apply merge_round_spec|]. by rewrite lookup_insert_eq, Hnext. }
  destruct (merge_documents_from _ _ _ _ _ _ Hd Hreach)
    as (fuel & log & h_r & cur & Hf & Hcur & ->).
  destruct fuel as [|[|fuel]]; [lia..|].
  cbn [merge_loop]. rewrite (deref_lookup _ _ _ Hcur).
  destruct (Nat.ltb_spec 1 (length level)); [|lia].
  rewrite (merge_round_spec _ _ _ _ _ Hcur), Hnext.
  cbn [mbind exec_bind bind].
  rewrite (deref_lookup _ _ (odd_tail level)) by apply lookup_insert_eq.
  pose proof (odd_tail_length level) as Hl.
  pose proof (Nat.mod_upper_bound (length level) 2 ltac:(lia)).
  destruct (Nat.ltb_spec 1 (length (odd_tail level))); [lia|].
  cbn [mbind exec_bind bind].
  rewrite (deref_lookup _ _ (odd_tail level)) by apply lookup_insert_eq.
  eexists _, _. split; [reflexivity|]. cbn [rounds final_level result].
  split; [done|]. split; [done|]. split.
  - intros [k Hk]. rewrite Hk, Nat.mul_comm, Nat.Div0.mod_mul in Hl.
    destruct (odd_tail level); [done|discriminate].
  - intros [k Hk]. unfold odd_tail.
    replace (length level mod 2)%nat with 1%nat.
    + destruct (last level) eqn:El; [done|].
      apply last_None in El. subst level. simpl in Hlen. lia.
    + rewrite Hk. symmetry.
      rewrite Nat.add_comm, Nat.mul_comm. apply Nat.Div0.mod_add.
Qed.

Lemma total_unavailability_witness :
  (forall (h_r : store) (current_level : ref),
      h_r !! current_level = Some [A; B; C; D] ->
      exists next_level h',
        merge_round dead 0 h_r current_level
        = Returns (next_level, h', requests dead 0 [A; B; C; D])
        /\ h' !! next_level = Some (odd_tail [A; B; C; D]))
  /\ exists m h',
      merge_documents dead (holding [A; B; C; D]) 1 = Returns (m, h')
      /\ rounds m = 1%nat
      /\ final_level m = odd_tail [A; B; C; D]
      /\ (Nat.Even 4 -> final_level m = [] /\ result m = [])
      /\ (Nat.Odd 4 -> last [A; B; C; D] = Some (result m)).
Proof.
  apply (total_unavailability dead (holding [A; B; C; D]) 1
           [A; B; C; D] 0 [A; B; C; D]).
  - reflexivity.
  - exact (reaches_first dead [A; B; C; D] ltac:(simpl; lia)).
  - simpl. lia.
  - repeat constructor.
Defined.

(** C3 as stated fails on a level of odd length: with the service
    down, the pool [A, B, C] loses the pair [(A, B)], keeps [C], and
    [merge_documents] returns [C], not the empty string. *)
Lemma total_unavailability_counterexample :
  Forall (fun o => failed o = true) (outcomes dead 0 [A; B; C])
  /\ exists next_level h' m h'',
      merge_round dead 0 (holding [A; B; C]) 1
      = Returns (next_level, h', [MkCall (A ++ [LF; LF] ++ B) false])
      /\ h' !! next_level = Some [C]
      /\ merge_documents dead (holding [A; B; C]) 1 = Returns (m, h'')
      /\ final_level m = [C]
      /\ result m = C
      /\ result m <> [].
Proof.
  split; [repeat constructor|]. eexists _, _, _, _.
  split; [vm_compute; reflexivity|]. split; [reflexivity|].
  split; [vm_compute; reflexivity|]. repeat split. discriminate.
Qed.

(** C6, amended.  A round in which exactly one call fails leaves a
    level one shorter than the same round leaves when no call fails.
    That level is made of the summaries of the other pairs, in
    completion order, and of the unpaired document: the failed pair
    adds nothing to it, and a text of the failed pair occurs in it
    only as one of those summaries or as the unpaired document.  No
    exception leaves [merge_documents]. *)
Theorem pair_failure_isolation env env' r (h : store) (current_level d : ref)
    level documents :
  h !! current_level = Some level ->
  h !! d = Some documents ->
  failures (outcomes env r level) = 1%nat ->
  failures (outcomes env' r level) = 0%nat ->
  exists next_level h1 made next next_level' h1' made' next',
    merge_round env r h current_level = Returns (next_level, h1, made)
    /\ h1 !! next_level = Some next
    /\ merge_round env' r h current_level = Returns (next_level', h1', made')
    /\ h1' !! next_level' = Some next'
    /\ (length next + 1 = length next')%nat
    /\ next = survivors env r level ++ odd_tail level
    /\ survivors env r level ≡ₚ successes (outcomes env r level)
    /\ (forall i pair t,
          adjacent_pairs level !! i = Some pair ->
          failed <$> outcomes env r level !! i = Some true ->
          t ∈ pair -> t ∈ next ->
          t ∈ successes (outcomes env r level) \/ t ∈ odd_tail level)
    /\ exists m h', merge_documents env h d = Returns (m, h').
Proof.
  intros Hcur Hd Hone Hnone. eexists _, _, _, _, _, _, _, _.
  split; [by apply merge_round_spec|]. split; [apply lookup_insert_eq|].
  split; [by apply merge_round_spec|]. split; [apply lookup_insert_eq|].
  pose proof (next_level_length env r level).
  pose proof (next_level_length env' r level).
  split; [lia|]. split; [done|]. split; [apply survivors_perm|].
  split; [|by eapply merge_documents_total].
  intros i pair t _ _ _ Hin. apply elem_of_app in Hin as [Hin|Hin]; [|by right].
  left. by rewrite <- survivors_perm.
Qed.

Lemma pair_failure_isolation_witness :
  exists next_level h1 made next next_level' h1' made' next',
    merge_round flaky 0 (holding [A; B; C; D; E]) 1
    = Returns (next_level, h1, made)
    /\ h1 !! next_level = Some next
    /\ merge_round steady 0 (holding [A; B; C; D; E]) 1
       = Returns (next_level', h1', made')
    /\ h1' !! next_level' = Some next'
    /\ (length next + 1 = length next')%nat
    /\ next = survivors flaky 0 [A; B; C; D; E] ++ odd_tail [A; B; C; D; E]
    /\ survivors flaky 0 [A; B; C; D; E]
       ≡ₚ successes (outcomes flaky 0 [A; B; C; D; E])
    /\ (forall i pair t,
          adjacent_pairs [A; B; C; D; E] !! i = Some pair ->
          failed <$> outcomes flaky 0 [A; B; C; D; E] !! i = Some true ->
          t ∈ pair -> t ∈ next ->
          t ∈ successes (outcomes flaky 0 [A; B; C; D; E])
          \/ t ∈ odd_tail [A; B; C; D; E])
    /\ exists m h', merge_documents flaky (holding [A; B; C; D; E]) 1
                    = Returns (m, h').
Proof.
  apply (pair_failure_isolation flaky steady 0 (holding [A; B; C; D; E]) 1 1
           [A; B; C; D; E] [A; B; C; D; E]); reflexivity.
Defined.

(** C6 as stated fails where a text of the failed pair is also the
    unpaired document: in the pool [A, B, A] the call for [(A, B)]
    fails, and the next level is [A]. *)
Lemma pair_failure_isolation_counterexample :
  failures (outcomes flaky 0 [A; B; A]) = 1%nat
  /\ adjacent_pairs [A; B; A] = [[A; B]]
  /\ outcomes flaky 0 [A; B; A] = [Raises RuntimeError]
  /\ exists next_level h' made next,
      merge_round flaky 0 (holding [A; B; A]) 1
      = Returns (next_level, h', made)
      /\ h' !! next_level = Some next
      /\ A ∈ [A; B]
      /\ A ∈ next.
Proof.
  split; [reflexivity|]. split; [reflexivity|]. split; [reflexivity|].
  eexists _, _, _, [A].
  split; [vm_compute; reflexivity|]. split; [reflexivity|].
  split; apply list_elem_of_here.
Qed.

End MergerProofs.

(** ** Properties of the chunker *)

Module ChunkerProofs.
Import Py SmartChunker ChunkSpec Examples.

Lemma len_nonneg s : 0 <= len s.
Proof. unfold len. lia. Qed.

Lemma len_app s1 s2 : len (s1 ++ s2) = len s1 + len s2.
Proof. unfold len. rewrite length_app. lia. Qed.

(** A slice between two positions is no longer than their distance. *)
Lemma slice_len s a b :
  0 <= a -> 0 <= b -> len (slice s a b) <= Z.max 0 (b - a).
Proof.
  intros Ha Hb. unfold slice, adjust, len.
  destruct (Z.ltb_spec a 0), (Z.ltb_spec b 0); try lia.
  rewrite length_take. lia.
Qed.

Lemma rscan_range s sub lo k :
  rscan s sub lo k = -1 \/ lo <= rscan s sub lo k < lo + Z.of_nat k.
Proof.
  induction k as [|k IH]; [by left|]. cbn [rscan].
  destruct (startswith _ _); [right; lia|].
  destruct IH as [IH|IH]; [by left|right; lia].
Qed.

(** A match of [rfind] lies entirely inside the window. *)
Lemma rfind_range s sub start end_ :
  0 <= start -> 0 <= end_ <= len s ->
  rfind s sub start end_ = -1
  \/ (start <= rfind s sub start end_
      /\ rfind s sub start end_ + len sub <= end_).
Proof.
  intros Hs He. unfold rfind.
  destruct (Z.ltb_spec (len s) end_); [lia|].
  destruct (Z.ltb_spec end_ 0); [lia|].
  destruct (Z.ltb_spec start 0); [lia|].
  destruct (Z.ltb_spec (end_ - start) (len sub)); [by left|].
  destruct (rscan_range s sub start (Z.to_nat (end_ - start - len sub + 1)))
    as [H'|H']; [by left|right; lia].
Qed.

(** The break lies in the window, at its end or past 60% of the size. *)
Lemma best_break_spec self text start end_ seps :
  0 <= start <= end_ -> end_ <= len text ->
  let b := best_break self text start end_ seps in
  b <= end_
  /\ (b = end_ \/ (start <= b /\ 3 * max_chunk_size self < 5 * (b - start))).
Proof.
  intros Hs He. induction seps as [|sep seps IH]; cbn [best_break].
  - split; [lia|by left].
  - destruct (rfind_range text sep start end_) as [->|[H1 H2]]; [lia..| |].
    + exact IH.
    + destruct (negb _ && past_60_percent self start _) eqn:E; [|exact IH].
      apply andb_prop in E as [_ E]. unfold past_60_percent in E.
      apply Z.ltb_lt in E. pose proof (len_nonneg sep). cbv zeta.
      split; [lia|right; lia].
Qed.

(** What one iteration does from a cursor inside the text. *)
Lemma iteration_spec self text start chunks :
  0 <= max_chunk_size self -> 0 <= start < len text ->
  exists b,
    start <= b <= len text /\ b - start <= max_chunk_size self
    /\ (0 < max_chunk_size self -> start < b)
    /\ ((b = len text
         /\ iteration self text start chunks
            = Finished (chunks ++ [slice text start b]))
        \/ (b < len text
            /\ (b = start + max_chunk_size self
                \/ 3 * max_chunk_size self < 5 * (b - start))
            /\ iteration self text start chunks
               = Running (if overlap self <? b then b - overlap self else b)
                         (chunks ++ [slice text start b]))).
Proof.
  intros Hmax Hstart. unfold iteration.
  destruct (Z.ltb_spec start (len text)); [|lia].
  destruct (Z.eqb_spec (Z.min (start + max_chunk_size self) (len text))
              (len text)) as [E|E].
  - exists (len text). rewrite E.
    split; [lia|]. split; [lia|]. split; [lia|]. by left.
  - assert (Hend : Z.min (start + max_chunk_size self) (len text)
                   = start + max_chunk_size self) by lia.
    rewrite Hend.
    destruct (best_break_spec self text start (start + max_chunk_size self)
                separators) as [Hb Hb']; [lia..|].
    exists (best_break self text start (start + max_chunk_size self)
              separators).
    split; [lia|]. split; [lia|]. split; [lia|]. right.
    split; [lia|]. split; [lia|done].
Qed.

Lemma sized_iteration self text start chunks :
  0 <= max_chunk_size self ->
  sized self (Running start chunks) ->
  sized self (iteration self text start chunks).
Proof.
  intros Hmax [Hw Hs]. cbn [emitted] in Hw.
  destruct (Z.lt_ge_cases start (len text)) as [Hlt|Hge].
  - destruct (iteration_spec self text start chunks Hmax ltac:(lia))
      as (b & Hb & Hbm & _ & [[_ ->]|(_ & _ & ->)]).
    all: assert (within (max_chunk_size self) (chunks ++ [slice text start b])).
    all: try (apply Forall_app; split; [done|]; apply Forall_singleton;
              pose proof (slice_len text start b); lia).
    + by split.
    + split; [done|]. destruct (Z.ltb_spec (overlap self) b); lia.
  - unfold iteration. destruct (Z.ltb_spec start (len text)); [lia|].
    by split.
Qed.

Lemma sized_iterate self text n st :
  0 <= max_chunk_size self -> sized self st ->
  sized self (iterate n self text st).
Proof.
  intros Hmax. revert st. induction n as [|n IH]; intros st Hst; [done|].
  destruct st as [start chunks|chunks]; [|done].
  cbn [iterate]. by apply IH, sized_iteration.
Qed.

Lemma seamless_snoc o n e spans a b :
  seamless o n e spans ->
  last_end e spans - o <= a <= last_end e spans -> 0 <= a <= b -> b <= n ->
  seamless o n e (spans ++ [(a, b)]).
Proof.
  revert e. induction spans as [|[a' b'] spans IH]; intros e; cbn.
  - by intros _ ? ? ?.
  - intros [? Hrest] ? ? ?. split; [done|]. by apply IH.
Qed.

Lemma last_end_snoc e spans a b : last_end e (spans ++ [(a, b)]) = b.
Proof.
  revert e. induction spans as [|[a' b'] spans IH]; intros e; cbn; [done|].
  apply IH.
Qed.

Lemma last_end_bound o n e spans :
  seamless o n e spans -> e <= n -> last_end e spans <= n.
Proof.
  revert e. induction spans as [|[a b] spans IH]; intros e; cbn; [done|].
  intros [(_ & _ & ?) Hrest] _. by apply IH.
Qed.

Lemma traced_iteration self text start chunks :
  0 <= max_chunk_size self ->
  traced self text (Running start chunks) ->
  traced self text (iteration self text start chunks).
Proof.
  intros Hmax (spans & Hcut & Hseam & Hs & Hs'). cbn [emitted] in Hcut.
  destruct (Z.lt_ge_cases start (len text)) as [Hlt|Hge].
  - destruct (iteration_spec self text start chunks Hmax ltac:(lia))
      as (b & Hb & Hbm & _ & [[Hend ->]|(_ & _ & ->)]).
    all: exists (spans ++ [(start, b)]); cbn [emitted].
    all: split; [unfold cut_at in *; by rewrite fmap_app, Hcut|].
    all: split; [apply seamless_snoc; [done|lia..]|].
    all: rewrite last_end_snoc.
    + done.
    + destruct (Z.ltb_spec (overlap self) b); lia.
  - unfold iteration. destruct (Z.ltb_spec start (len text)); [lia|].
    exists spans. split; [done|]. split; [done|].
    pose proof (last_end_bound _ _ _ _ Hseam (len_nonneg text)). lia.
Qed.

Lemma traced_iterate self text n st :
  0 <= max_chunk_size self -> traced self text st ->
  traced self text (iterate n self text st).
Proof.
  intros Hmax. revert st. induction n as [|n IH]; intros st Hst; [done|].
  destruct st as [start chunks|chunks]; [|done].
  cbn [iterate]. by apply IH, traced_iteration.
Qed.

(** Seamless windows cover every position up to where they end. *)
Lemma seamless_covers o n e spans i :
  seamless o n e spans -> e <= i < last_end e spans ->
  exists a b, (a, b) ∈ spans /\ a <= i < b.
Proof.
  revert e. induction spans as [|[a b] spans IH]; intros e; cbn; [lia|].
  intros [(? & ? & ?) Hrest] Hi.
  destruct (Z.lt_ge_cases i b) as [Hlt|Hge].
  - exists a, b. split; [apply list_elem_of_here|lia].
  - destruct (IH b Hrest ltac:(lia)) as (a' & b' & Hin & ?).
    exists a', b'. split; [by apply list_elem_of_further|done].
Qed.

(** With an overlap of at most 60% of a positive window the cursor
    moves forward in every iteration that does not end the loop. *)
Lemma cursor_advances self text start chunks start' chunks' :
  0 < max_chunk_size self -> 0 <= overlap self ->
  5 * overlap self <= 3 * max_chunk_size self ->
  0 <= start ->
  iteration self text start chunks = Running start' chunks' ->
  start < start'.
Proof.
  intros Hmax Hov Hsmall Hstart.
  destruct (Z.lt_ge_cases start (len text)) as [Hlt|Hge].
  - destruct (iteration_spec self text start chunks ltac:(lia) ltac:(lia))
      as (b & Hb & Hbm & Hlt' & [[_ ->]|(_ & Hfar & ->)]); [done|].
    intros [= <- _]. specialize (Hlt' Hmax).
    destruct (Z.ltb_spec (overlap self) b); lia.
  - unfold iteration. by destruct (Z.ltb_spec start (len text)); [lia|].
Qed.

Lemma iterate_finishes self text n start chunks :
  0 < max_chunk_size self -> 0 <= overlap self ->
  5 * overlap self <= 3 * max_chunk_size self ->
  0 <= start -> len text - start <= Z.of_nat n ->
  exists chunks',
    iterate (S n) self text (Running start chunks) = Finished chunks'.
Proof.
  intros Hmax Hov Hsmall. revert start chunks.
  induction n as [|n IH]; intros start chunks Hstart Hn.
  - cbn [iterate]. unfold iteration.
    destruct (Z.ltb_spec start (len text)); [lia|]. eauto.
  - cbn [iterate]. destruct (iteration self text start chunks)
      as [start' chunks'|chunks'] eqn:E; [|eauto].
    pose proof (cursor_advances _ _ _ _ _ _ Hmax Hov Hsmall Hstart E).
    apply (IH start' chunks'); lia.
Qed.

Lemma lstrip_len s : len (lstrip s) <= len s.
Proof.
  unfold len. induction s as [|c s IH]; [done|]. cbn [lstrip].
  destruct (isspace c); cbn [length]; lia.
Qed.

Lemma strip_len s : len (strip s) <= len s.
Proof.
  unfold strip, rstrip. pose proof (lstrip_len s).
  pose proof (lstrip_len (rev (lstrip s))). unfold len in *.
  rewrite length_rev in *. lia.
Qed.

Lemma nonempty_len s : nonempty s = true -> 1 <= len s.
Proof. destruct s; [done|]. unfold len. cbn [length]. lia. Qed.

Lemma flush_within bound m merged current :
  within bound merged -> len current <= bound ->
  within bound (flush m merged current).
Proof.
  intros Hm Hc. unfold flush. destruct (_ && _); [|done].
  apply Forall_app. split; [done|by apply Forall_singleton].
Qed.

Lemma coalesce_step_within self m merged current chunk :
  len chunk <= max_chunk_size self ->
  within (max_chunk_size self + 1) merged ->
  len current <= max_chunk_size self + 1 ->
  within (max_chunk_size self + 1) (coalesce self m (merged, current) chunk).1
  /\ len (coalesce self m (merged, current) chunk).2
     <= max_chunk_size self + 1.
Proof.
  intros Hc Hm Hcur. unfold coalesce. pose proof (strip_len chunk).
  destruct (nonempty (strip chunk)) eqn:Hne; cbn [negb]; [|by split].
  apply nonempty_len in Hne.
  destruct (Z.leb_spec (len current + len (strip chunk))
              (max_chunk_size self)); cbn [fst snd].
  - split; [done|]. destruct (nonempty current).
    + rewrite !len_app. change (len (lit " ")) with 1. lia.
    + lia.
  - split; [by apply flush_within|lia].
Qed.

(** Coalescing chunks no longer than the window gives chunks that
    exceed it by one joining space at most. *)
Lemma coalesce_within self m chunks acc :
  within (max_chunk_size self) chunks ->
  within (max_chunk_size self + 1) acc.1 ->
  len acc.2 <= max_chunk_size self + 1 ->
  within (max_chunk_size self + 1) (foldl (coalesce self m) acc chunks).1
  /\ len (foldl (coalesce self m) acc chunks).2 <= max_chunk_size self + 1.
Proof.
  intros Hchunks. revert acc.
  induction Hchunks as [|chunk chunks Hc _ IH]; intros [merged current] Hm Hcur.
  - by split.
  - cbn [foldl].
    destruct (coalesce_step_within self m merged current chunk Hc Hm Hcur).
    by apply IH.
Qed.

Lemma merge_small_within self m chunks :
  0 <= max_chunk_size self ->
  within (max_chunk_size self) chunks ->
  within (max_chunk_size self + 1) (merge_small self m chunks).
Proof.
  intros Hmax Hchunks. unfold merge_small.
  destruct (coalesce_within self m chunks ([], []) Hchunks) as [H1 H2].
  - constructor.
  - cbn [snd]. unfold len. cbn [length]. lia.
  - destruct (foldl _ _ _) as [merged current]. by apply flush_within.
Qed.

Lemma index_elem_of {X} (l : list X) i x : index l i = Returns x -> x ∈ l.
Proof.
  unfold index. destruct (l !! i) eqn:E; [|done].
  intros [= <-]. by eapply list_elem_of_lookup_2.
Qed.

Lemma index_from_end_elem_of {X} (l : list X) k x :
  index_from_end l k = Returns x -> x ∈ l.
Proof.
  unfold index_from_end. destruct (_ && _); [apply index_elem_of|done].
Qed.

(** The filter only selects. *)
Lemma filter_chunks_subset chunks out x :
  _filter_chunks chunks = Returns out -> x ∈ out -> x ∈ chunks.
Proof.
  unfold _filter_chunks. destruct (length chunks <=? 3)%nat.
  - by intros [= <-].
  - destruct (index chunks 0) as [c1| |] eqn:E1; [|done..].
    destruct (index_from_end chunks 2) as [c3| |] eqn:E3; [|done..].
    destruct (index chunks (length chunks / 2)) as [c2| |] eqn:E2; [|done..].
    cbn. intros [= <-] Hin.
    apply index_elem_of in E1, E2. apply index_from_end_elem_of in E3.
    repeat (apply elem_of_cons in Hin as [->|Hin]; [done|]).
    by apply elem_of_nil in Hin.
Qed.


Lemma slice_take_drop s a b :
  0 <= a <= b -> b <= len s ->
  slice s a b = take (Z.to_nat b - Z.to_nat a) (drop (Z.to_nat a) s).
Proof.
  intros Ha Hb. unfold slice, adjust.
  destruct (Z.ltb_spec a 0), (Z.ltb_spec b 0); try lia.
  rewrite !Z.min_l by lia. f_equal. lia.
Qed.

Lemma stitch_seamless o text e spans :
  seamless o (len text) e spans -> 0 <= e <= len text ->
  stitch (take (Z.to_nat e) text) spans
         ((fun span => slice text span.1 span.2) <$> spans)
  = take (Z.to_nat (last_end e spans)) text.
Proof.
  revert e. induction spans as [|[a b] spans IH]; intros e; cbn; [done|].
  intros [(? & ? & ?) Hrest] He.
  rewrite take_take, Nat.min_l by lia.
  rewrite slice_take_drop by lia.
  rewrite take_take_drop.
  replace (Z.to_nat a + (Z.to_nat b - Z.to_nat a))%nat with (Z.to_nat b)
    by lia.
  apply IH; [done|lia].
Qed.

Lemma traced_start self text :
  0 <= overlap self -> traced self text (Running 0 []).
Proof. intros Hov. exists []. cbn. repeat split; lia. Qed.

Lemma sized_start self : sized self (Running 0 []).
Proof. split; [constructor|done]. Qed.

(** C7.  On the manual path, with sizes that are not negative, the
    chunks that [chunk_text] returns are windows of the normalized
    text: the first begins at its start, each next one begins where
    the one before ended or at most [overlap] characters earlier, and
    the last ends at its end; so no position is left out, and laying
    the chunks over one another at those seams gives the normalized
    text back.  The windows are seamless after any number of
    iterations, and [chunk_text] returns whenever the overlap is at
    most 60% of a positive window. *)
Theorem raw_chunks_cover self text fuel chunks :
  chonkie self = None ->
  0 <= max_chunk_size self -> 0 <= overlap self ->
  (chunk_text fuel self text = Returns chunks ->
   exists spans,
     cut_at (normalized text) spans chunks
     /\ seamless (overlap self) (len (normalized text)) 0 spans
     /\ last_end 0 spans = len (normalized text)
     /\ covers (normalized text) spans
     /\ stitch [] spans chunks = normalized text)
  /\ (forall n,
        traced self (normalized text)
               (iterate n self (normalized text) (Running 0 [])))
  /\ (0 < max_chunk_size self ->
      5 * overlap self <= 3 * max_chunk_size self ->
      exists chunks',
        chunk_text (S (length (normalized text))) self text
        = Returns chunks').
Proof.
  intros Hmanual Hmax Hov. unfold chunk_text. rewrite Hmanual.
  fold (normalized text). unfold _split_text_manual.
  assert (Htr : forall n, traced self (normalized text)
                  (iterate n self (normalized text) (Running 0 []))).
  { intros n. by apply traced_iterate, traced_start. }
  split; [|split; [done|]].
  - specialize (Htr fuel).
    destruct (iterate fuel _ _ _) as [?|chunks0]; [done|].
    intros [= ->]. destruct Htr as (spans & Hcut & Hseam & Hend).
    cbn [emitted] in Hcut. exists spans.
    split; [done|]. split; [done|]. split; [done|]. split.
    + intros i Hi. apply (seamless_covers _ _ _ _ _ Hseam). lia.
    + pose proof (stitch_seamless _ _ 0 spans Hseam) as Hst.
      change (take (Z.to_nat 0) (normalized text)) with (@nil ascii) in Hst.
      unfold cut_at in Hcut. rewrite Hcut, Hst.
      * rewrite Hend. unfold len. rewrite Nat2Z.id. apply firstn_all.
      * pose proof (len_nonneg (normalized text)). lia.
  - intros Hpos Hsmall.
    destruct (iterate_finishes self (normalized text)
                (length (normalized text)) 0 [] Hpos Hov Hsmall)
      as [chunks' ->]; [lia|unfold len; lia|eauto].
Qed.

Lemma raw_chunks_cover_witness :
  exists chunks spans,
    chunk_text 20 small sentence = Returns chunks
    /\ cut_at (normalized sentence) spans chunks
    /\ seamless 2 (len (normalized sentence)) 0 spans
    /\ last_end 0 spans = len (normalized sentence)
    /\ covers (normalized sentence) spans
    /\ stitch [] spans chunks = normalized sentence.
Proof.
  destruct (chunk_text 20 small sentence) as [chunks| |] eqn:Hrun;
    [|vm_compute in Hrun; discriminate..].
  destruct (raw_chunks_cover small sentence 20 chunks eq_refl
              ltac:(simpl; lia) ltac:(simpl; lia))
    as [Hcover _].
  destruct (Hcover Hrun) as (spans & H).
  exists chunks, spans. split; [reflexivity|exact H].
Defined.

Lemma within_weaken bound bound' chunks :
  bound <= bound' -> within bound chunks -> within bound' chunks.
Proof.
  intros Hb Hw. eapply Forall_impl; [exact Hw|].
  intros chunk Hc. cbv beta in *. lia.
Qed.

(** C4.  On the manual path, with a window size that is not
    negative, no separator is longer than two characters and no chunk
    is longer than the window size plus two: neither a chunk appended
    by the splitting loop after any number of iterations, nor one
    returned by [chunk_text], nor one returned by [chunk_document]. *)
Theorem chunk_boundedness self text min_chunk_size fuel raw coalesced :
  chonkie self = None ->
  0 <= max_chunk_size self ->
  within 2 separators
  /\ (forall n,
        within (max_chunk_size self + 2)
               (emitted (iterate n self (normalized text) (Running 0 []))))
  /\ (chunk_text fuel self text = Returns raw ->
      within (max_chunk_size self + 2) raw)
  /\ (chunk_document fuel self text min_chunk_size = Returns coalesced ->
      within (max_chunk_size self + 2) coalesced).
Proof.
  intros Hmanual Hmax.
  assert (Hsized : forall n, within (max_chunk_size self)
            (emitted (iterate n self (normalized text) (Running 0 [])))).
  { intros n. by apply sized_iterate, sized_start. }
  assert (Hraw : forall chunks,
             chunk_text fuel self text = Returns chunks ->
             within (max_chunk_size self) chunks).
  { intros chunks. unfold chunk_text. rewrite Hmanual.
    fold (normalized text). unfold _split_text_manual.
    specialize (Hsized fuel).
    destruct (iterate fuel _ _ _) as [?|chunks0]; [done|].
    by intros [= <-]. }
  split; [repeat constructor; by vm_compute|].
  split; [intros n; eapply within_weaken; [|apply Hsized]; lia|].
  split; [intros H; eapply within_weaken; [|by apply Hraw]; lia|].
  unfold chunk_document.
  destruct (chunk_text fuel self text) as [chunks| |] eqn:E; [|done..].
  cbn [mbind exec_bind bind]. intros Hfilter.
  apply Forall_forall. intros chunk Hin.
  apply (filter_chunks_subset _ _ _ Hfilter) in Hin.
  pose proof (merge_small_within self min_chunk_size chunks Hmax
                (Hraw _ eq_refl)) as Hsmall.
  unfold within in Hsmall. rewrite Forall_forall in Hsmall.
  specialize (Hsmall _ Hin). cbv beta in Hsmall. lia.
Qed.

Lemma chunk_boundedness_witness :
  exists raw coalesced,
    chunk_text 20 small sentence = Returns raw
    /\ chunk_document 20 small sentence 3 = Returns coalesced
    /\ within 12 raw
    /\ within 12 coalesced.
Proof.
  destruct (chunk_text 20 small sentence) as [raw| |] eqn:Hraw;
    [|vm_compute in Hraw; discriminate..].
  destruct (chunk_document 20 small sentence 3) as [coalesced| |] eqn:Hdoc;
    [|vm_compute in Hdoc; discriminate..].
  destruct (chunk_boundedness small sentence 3 20 raw coalesced eq_refl
              ltac:(simpl; lia))
    as (_ & _ & Hr & Hd).
  exists raw, coalesced. split; [reflexivity|]. split; [reflexivity|].
  split; [exact (Hr Hraw)|exact (Hd Hdoc)].
Defined.

(** C5.  [_filter_chunks] returns a list of more than three chunks
    as its first chunk, the chunk at index [n // 2] and the chunk at
    index [-2], in that order, and a list of three chunks or fewer as
    it is. *)
Theorem count_reduction_policy chunks :
  ((3 < length chunks)%nat ->
   exists first middle second_to_last,
     chunks !! 0%nat = Some first
     /\ chunks !! (length chunks / 2)%nat = Some middle
     /\ index_from_end chunks 2 = Returns second_to_last
     /\ chunks !! (length chunks - 2)%nat = Some second_to_last
     /\ _filter_chunks chunks = Returns [first; middle; second_to_last])
  /\ ((length chunks <= 3)%nat -> _filter_chunks chunks = Returns chunks).
Proof.
  unfold _filter_chunks. split; intros Hn.
  - destruct (Nat.leb_spec (length chunks) 3); [lia|].
    destruct (lookup_lt_is_Some_2 chunks 0) as [c1 H1]; [lia|].
    destruct (lookup_lt_is_Some_2 chunks (length chunks / 2)) as [c2 H2].
    { apply Nat.Div0.div_lt_upper_bound. lia. }
    destruct (lookup_lt_is_Some_2 chunks (length chunks - 2)) as [c3 H3];
      [lia|].
    assert (H3' : index_from_end chunks 2 = Returns c3).
    { unfold index_from_end, index.
      destruct (Nat.leb_spec 2 (length chunks)); [|lia]. by rewrite H3. }
    exists c1, c2, c3. unfold index at 1 2. by rewrite H1, H2, H3'.
  - by destruct (Nat.leb_spec (length chunks) 3); [|lia].
Qed.

Lemma count_reduction_policy_witness :
  _filter_chunks [A; B; C; D; E] = Returns [A; C; D]
  /\ _filter_chunks [A; B; C] = Returns [A; B; C].
Proof.
  split.
  - destruct (proj1 (count_reduction_policy [A; B; C; D; E]))
      as (c1 & c2 & c3 & [= <-] & [= <-] & _ & [= <-] & H);
      [simpl; lia|exact H].
  - apply (proj2 (count_reduction_policy [A; B; C])). simpl. lia.
Defined.

Lemma stalled_iterate n chunks :
  exists chunks',
    iterate n stalled thirty (Running 10 chunks) = Running 10 chunks'.
Proof.
  revert chunks. induction n as [|n IH]; intros chunks; [by eexists|].
  cbn [iterate].
  change (iteration stalled thirty 10 chunks)
    with (Running 10 (chunks ++ [slice thirty 10 20])).
  apply IH.
Qed.

(** C2 fails on the code.  With a window of 10 and an overlap of 10
    the second iteration on a text of thirty letters starts at
    cursor 10 and ends at cursor 10, and so does every later one:
    [chunk_text] returns for no number of iterations. *)
Theorem cursor_stalls :
  normalized thirty = thirty
  /\ iterate 1 stalled thirty (Running 0 []) = Running 10 [slice thirty 0 10]
  /\ (forall chunks,
        iteration stalled thirty 10 chunks
        = Running 10 (chunks ++ [slice thirty 10 20]))
  /\ (forall fuel, chunk_text fuel stalled thirty = OutOfFuel).
Proof.
  split; [reflexivity|]. split; [reflexivity|]. split; [reflexivity|].
  intros fuel. unfold chunk_text. cbn [chonkie stalled].
  change (sub_spaces false (strip thirty)) with thirty.
  unfold _split_text_manual. destruct fuel as [|fuel]; [reflexivity|].
  cbn [iterate].
  change (iteration stalled thirty 0 [])
    with (Running 10 [slice thirty 0 10]).
  by destruct (stalled_iterate fuel [slice thirty 0 10]) as [chunks' ->].
Qed.
End ChunkerProofs.
(** ** Further properties of the chunker *)

Module ChunkerMore.
Import Py SmartChunker ChunkSpec TextSpec Examples ChunkerProofs.

Lemma lstrip_head s :
  lstrip s = [] \/ exists c rest, lstrip s = c :: rest /\ isspace c = false.
Proof.
  induction s as [|c s IH]; [by left|]. cbn [lstrip].
  destruct (isspace c) eqn:E; [exact IH|right; eauto].
Qed.

Lemma lstrip_blank s : Forall (fun c => isspace c = true) s -> lstrip s = [].
Proof. induction 1 as [|c s Hc _ IH]; [done|]. cbn. by rewrite Hc. Qed.

Lemma lstrip_fixed c s : isspace c = false -> lstrip (c :: s) = c :: s.
Proof. intros E. cbn. by rewrite E. Qed.

(** Stripping on the left leaves a last character that is not
    whitespace where it is. *)
Lemma lstrip_snoc l c :
  isspace c = false -> exists l', lstrip (l ++ [c]) = l' ++ [c].
Proof.
  intros Hc. induction l as [|a l IH].
  - exists []. cbn. by rewrite Hc.
  - cbn [app lstrip]. destruct (isspace a); [exact IH|by exists (a :: l)].
Qed.

(** [strip] returns the empty string or a string whose first and last
    characters are not whitespace. *)
Lemma strip_ends s :
  strip s = []
  \/ exists c rest d,
      strip s = c :: rest /\ isspace c = false
      /\ last (strip s) = Some d /\ isspace d = false.
Proof.
  unfold strip, rstrip.
  destruct (lstrip_head s) as [->|(c & rest & -> & Hc)]; [by left|right].
  cbn [rev]. destruct (lstrip_snoc (rev rest) c Hc) as [l' E1].
  destruct (lstrip_head (rev rest ++ [c])) as [E|(d & tl & E & Hd)].
  { rewrite E1 in E. destruct l'; discriminate. }
  exists c, (rev l'), d. split; [by rewrite E1, rev_app_distr|].
  split; [done|]. split; [|done]. rewrite E. cbn [rev]. apply last_snoc.
Qed.

Lemma strip_blank s : Forall (fun c => isspace c = true) s -> strip s = [].
Proof. intros H. unfold strip, rstrip. by rewrite (lstrip_blank s H). Qed.

(** A string whose ends are not whitespace is what [strip] returns for
    it. *)
Lemma strip_fixed c rest d :
  isspace c = false -> last (c :: rest) = Some d -> isspace d = false ->
  strip (c :: rest) = c :: rest.
Proof.
  intros Hc Hl Hd. unfold strip, rstrip. rewrite (lstrip_fixed c rest Hc).
  apply last_Some in Hl as [l' Hl]. rewrite Hl, rev_app_distr. cbn [rev app].
  rewrite (lstrip_fixed d _ Hd). cbn [rev]. by rewrite rev_involutive.
Qed.

(** [re.sub] leaves a well spaced string when its input does not end
    in whitespace. *)
Lemma sub_spaces_well_spaced b s :
  match last s with
  | Some c => isspace c = false
  | None => b = false
  end ->
  well_spaced b (sub_spaces b s) = true.
Proof.
  revert b. induction s as [|c s IH]; intros b Hl.
  - cbn in *. by rewrite Hl.
  - cbn [sub_spaces]. destruct (isspace c) eqn:Ec.
    + assert (Hl' : match last s with
                    | Some c' => isspace c' = false
                    | None => true = false
                    end).
      { destruct s as [|c' s']; [cbn in Hl |- *; congruence|].
        rewrite last_cons_cons in Hl.
        destruct (last (c' :: s')) eqn:E; [done|]. by apply last_None in E. }
      destruct b.
      * by apply IH.
      * cbn [well_spaced]. change (isspace " ") with true. cbn.
        by apply IH.
    + cbn [well_spaced]. rewrite Ec. apply IH.
      destruct s as [|c' s']; [done|]. rewrite last_cons_cons in Hl.
      by destruct (last (c' :: s')).
Qed.

Lemma sub_spaces_fixed a t : well_spaced a t = true -> sub_spaces a t = t.
Proof.
  revert a. induction t as [|c t IH]; intros a H; [done|].
  cbn [well_spaced sub_spaces] in *. destruct (isspace c).
  - apply andb_prop in H as [H Ht]. apply andb_prop in H as [Hc Ha].
    apply Ascii.eqb_eq in Hc as ->. destruct a; [done|].
    f_equal. by apply IH.
  - f_equal. by apply IH.
Qed.

Lemma well_spaced_space a t c :
  well_spaced a t = true -> c ∈ t -> isspace c = true -> c = " "%char.
Proof.
  revert a. induction t as [|d t IH]; intros a H Hin Hc.
  - by apply elem_of_nil in Hin.
  - cbn [well_spaced] in H. apply elem_of_cons in Hin as [->|Hin].
    + rewrite Hc in H. apply andb_prop in H as [H _].
      apply andb_prop in H as [H _]. by apply Ascii.eqb_eq in H.
    + destruct (isspace d); [|by eapply IH].
      apply andb_prop in H as [_ H]. by eapply IH.
Qed.

(** Every space of a well spaced string is followed by a character
    that is not whitespace, and is not the first one after a space. *)
Lemma well_spaced_lookup a t i :
  well_spaced a t = true -> t !! i = Some " "%char ->
  (a = true -> (0 < i)%nat)
  /\ exists c, t !! S i = Some c /\ isspace c = false.
Proof.
  revert a i. induction t as [|d t IH]; intros a i H Hi; [done|].
  cbn [well_spaced] in H. destruct i as [|i].
  - cbn in Hi. injection Hi as ->. change (isspace " ") with true in H.
    apply andb_prop in H as [H Ht]. apply andb_prop in H as [_ Ha].
    split; [by destruct a|]. destruct t as [|c t]; [done|].
    cbn [well_spaced] in Ht. exists c. split; [done|].
    destruct (isspace c); [|done].
    apply andb_prop in Ht as [Ht _]. by apply andb_prop in Ht as [_ ?].
  - cbn in Hi. split; [lia|].
    destruct (isspace d).
    + apply andb_prop in H as [_ H]. by destruct (IH _ _ H Hi).
    + by destruct (IH _ _ H Hi).
Qed.

(** The text [chunk_text] cuts is empty or well spaced from its first
    character on. *)
Lemma normalized_well_spaced text :
  normalized text = [] \/ well_spaced true (normalized text) = true.
Proof.
  unfold normalized.
  destruct (strip_ends text) as [->|(c & rest & d & E & Hc & Hl & Hd)];
    [by left|right].
  pose proof (sub_spaces_well_spaced false (strip text)) as H.
  rewrite Hl in H. specialize (H Hd). rewrite E in H |- *.
  cbn [sub_spaces] in H |- *. rewrite Hc in H |- *.
  cbn [well_spaced] in H |- *. by rewrite Hc in H |- *.
Qed.

Lemma trimmed_strip s : trimmed s -> strip s = s.
Proof.
  intros [(c & Hc & ?) (d & Hd & ?)]. destruct s as [|c' rest]; [done|].
  injection Hc as ->. by apply (strip_fixed c rest d).
Qed.

(** The text [chunk_text] cuts is empty, or neither begins nor ends
    with whitespace. *)
Lemma normalized_trimmed text :
  normalized text = [] \/ trimmed (normalized text).
Proof.
  destruct (normalized_well_spaced text) as [E|Hw]; [by left|right].
  destruct (normalized text) as [|c rest] eqn:E; [done|].
  assert (Hc : isspace c = false).
  { cbn [well_spaced] in Hw. destruct (isspace c); [|done].
    apply andb_prop in Hw as [Hw _]. by apply andb_prop in Hw as [_ ?]. }
  split; [by exists c|].
  destruct (last (c :: rest)) as [d|] eqn:El; [|by apply last_None in El].
  exists d. split; [done|]. destruct (isspace d) eqn:Ed; [|done].
  pose proof El as El'. apply last_Some in El' as [l' El'].
  assert (Hd : (c :: rest) !! length l' = Some d)
    by (rewrite El', lookup_app_r, Nat.sub_diag by lia; done).
  assert (d = " "%char) as ->.
  { eapply (well_spaced_space _ _ d Hw); [|done].
    rewrite El'. apply elem_of_app. right. apply list_elem_of_here. }
  destruct (well_spaced_lookup _ _ _ Hw Hd) as [_ (x & Hx & _)].
  assert (length (c :: rest) = S (length l'))
    by (rewrite El', length_app; simpl; lia).
  apply lookup_lt_Some in Hx. lia.
Qed.

(** X1.  The cleaned text of [chunk_text] has no whitespace but single
    spaces between characters that are not whitespace, and cleaning it
    again changes nothing. *)
Theorem normalized_clean text :
  normalized (normalized text) = normalized text
  /\ (forall c, c ∈ normalized text -> isspace c = true -> c = " "%char)
  /\ (forall i,
        normalized text !! i = Some " "%char ->
        (0 < i)%nat
        /\ exists c, normalized text !! S i = Some c /\ isspace c = false).
Proof.
  destruct (normalized_well_spaced text) as [E|H].
  { rewrite E. split; [done|]. split; [|done].
    intros c Hc. by apply elem_of_nil in Hc. }
  split; [|split].
  - destruct (normalized_trimmed text) as [E|Ht]; [by rewrite E|].
    unfold normalized at 1. rewrite (trimmed_strip _ Ht).
    apply sub_spaces_fixed. destruct (normalized text) as [|c rest]; [done|].
    destruct Ht as [(c' & [= <-] & Hc) _].
    cbn [well_spaced] in H |- *. by rewrite Hc in H |- *.
  - intros c. exact (well_spaced_space true _ c H).
  - intros i Hi. destruct (well_spaced_lookup _ _ _ H Hi) as [H0 H1].
    split; [by apply H0|done].
Qed.

(** X2.  For a text that is empty or all whitespace, [chunk_text]
    returns no chunk and so does [chunk_document], after one test of
    the loop and for any sizes. *)
Theorem blank_text_no_chunks self text fuel min_chunk_size :
  chonkie self = None ->
  Forall (fun c => isspace c = true) text ->
  normalized text = []
  /\ chunk_text (S fuel) self text = Returns []
  /\ chunk_document (S fuel) self text min_chunk_size = Returns [].
Proof.
  intros Hmanual Hblank.
  assert (Hn : normalized text = []).
  { unfold normalized. by rewrite (strip_blank text Hblank). }
  assert (Hraw : chunk_text (S fuel) self text = Returns []).
  { unfold chunk_text. rewrite Hmanual. fold (normalized text). rewrite Hn.
    unfold _split_text_manual. cbn [iterate]. unfold iteration.
    change (len []) with 0. cbn. by destruct fuel. }
  split; [done|]. split; [done|].
  unfold chunk_document. rewrite Hraw. reflexivity.
Qed.

Lemma blank_text_no_chunks_witness :
  normalized (lit "  ") = []
  /\ chunk_text 1 small (lit "  ") = Returns []
  /\ chunk_document 1 small (lit "  ") 100 = Returns [].
Proof.
  apply (blank_text_no_chunks small (lit "  ") 0 100); [reflexivity|].
  repeat constructor.
Defined.

Lemma slice_all s : slice s 0 (len s) = s.
Proof.
  rewrite slice_take_drop by (pose proof (len_nonneg s); lia).
  cbn [Z.to_nat drop]. unfold len. rewrite Nat2Z.id, Nat.sub_0_r.
  apply firstn_all.
Qed.

(** A text that is not empty and fits in one window is cut in one
    iteration, into itself. *)
Lemma iterate_single_window self t fuel :
  0 < len t <= max_chunk_size self ->
  iterate (S fuel) self t (Running 0 []) = Finished [t].
Proof.
  intros Hlen. cbn [iterate]. unfold iteration.
  destruct (Z.ltb_spec 0 (len t)); [|lia].
  rewrite Z.min_r by lia. rewrite Z.eqb_refl, slice_all. by destruct fuel.
Qed.

(** X3.  A text whose cleaned form is not empty and fits in one window
    comes back as one chunk, the cleaned text itself, whatever the
    overlap. *)
Theorem short_text_one_chunk self text fuel :
  chonkie self = None ->
  0 < len (normalized text) <= max_chunk_size self ->
  chunk_text (S fuel) self text = Returns [normalized text].
Proof.
  intros Hmanual Hlen. unfold chunk_text. rewrite Hmanual.
  fold (normalized text). unfold _split_text_manual.
  by rewrite iterate_single_window.
Qed.

Lemma normalized_clean_witness :
  normalized (normalized (lit " a  b ")) = normalized (lit " a  b ")
  /\ (0 < 1)%nat.
Proof.
  destruct (normalized_clean (lit " a  b ")) as (Hfix & _ & Hspace).
  split; [exact Hfix|]. exact (proj1 (Hspace 1%nat eq_refl)).
Defined.

Lemma short_text_one_chunk_witness :
  chunk_text 1 stalled (lit " a  b ") = Returns [lit "a b"].
Proof.
  apply (short_text_one_chunk stalled (lit " a  b ") 0); [reflexivity|].
  vm_compute. split; [reflexivity|discriminate].
Defined.

Lemma startswith_take s sub :
  startswith s sub = true <-> take (length sub) s = sub.
Proof.
  revert s. induction sub as [|p sub IH]; intros s; [by destruct s|].
  destruct s as [|c s]; cbn; [by split|]. split.
  - intros H. apply andb_prop in H as [Hc H].
    apply Ascii.eqb_eq in Hc as ->. f_equal. by apply IH.
  - intros [= -> H]. rewrite Ascii.eqb_refl. by apply IH.
Qed.

Lemma slice_length s a b :
  0 <= a <= b -> b <= len s -> len (slice s a b) = b - a.
Proof.
  intros Ha Hb. rewrite slice_take_drop by lia. unfold len in *.
  rewrite length_take, length_drop. lia.
Qed.

Lemma slice_app s a m b :
  0 <= a <= m -> m <= b -> b <= len s ->
  slice s a b = slice s a m ++ slice s m b.
Proof.
  intros Ha Hm Hb. rewrite !slice_take_drop by lia.
  replace (drop (Z.to_nat m) s)
    with (drop (Z.to_nat m - Z.to_nat a) (drop (Z.to_nat a) s))
    by (rewrite drop_drop; f_equal; lia).
  rewrite take_take_drop. f_equal. lia.
Qed.

Lemma occurs_startswith s sub j :
  0 <= j -> j + len sub <= len s ->
  occurs_at s sub j <-> startswith (drop (Z.to_nat j) s) sub = true.
Proof.
  intros Hj Hl. unfold occurs_at. pose proof (len_nonneg sub).
  rewrite slice_take_drop, startswith_take by lia.
  replace (Z.to_nat (j + len sub) - Z.to_nat j)%nat with (length sub)
    by (unfold len; lia).
  done.
Qed.

(** [rscan] returns the highest of the positions it is given at which
    [sub] starts. *)
Lemma rscan_spec s sub lo k :
  0 <= lo ->
  let p := rscan s sub lo k in
  (p = -1 \/ (lo <= p < lo + Z.of_nat k
              /\ startswith (drop (Z.to_nat p) s) sub = true))
  /\ forall j, lo <= j < lo + Z.of_nat k -> p < j ->
               startswith (drop (Z.to_nat j) s) sub = false.
Proof.
  intros Hlo. induction k as [|k IH]; cbn [rscan].
  - split; [by left|]. lia.
  - destruct (startswith (drop (Z.to_nat (lo + Z.of_nat k)) s) sub) eqn:E.
    + cbv zeta. split; [right; split; [lia|done]|]. lia.
    + cbv zeta in IH |- *. destruct IH as [IH1 IH2]. split.
      * destruct IH1 as [?|[? ?]]; [by left|right]. split; [lia|done].
      * intros j Hj Hp.
        destruct (Z.eq_dec j (lo + Z.of_nat k)) as [->|?]; [done|].
        apply IH2; lia.
Qed.

(** [rfind] returns the last occurrence of [sub] that lies within the
    window, and [-1] only when there is none. *)
Lemma rfind_spec s sub start end_ :
  0 <= start -> 0 <= end_ <= len s ->
  let p := rfind s sub start end_ in
  (p = -1 \/ (start <= p /\ p + len sub <= end_ /\ occurs_at s sub p))
  /\ forall j, start <= j -> j + len sub <= end_ -> p < j ->
               ~ occurs_at s sub j.
Proof.
  intros Hs He. unfold rfind. pose proof (len_nonneg sub).
  destruct (Z.ltb_spec (len s) end_); [lia|].
  destruct (Z.ltb_spec end_ 0); [lia|].
  destruct (Z.ltb_spec start 0); [lia|].
  destruct (Z.ltb_spec (end_ - start) (len sub)).
  { cbv zeta. split; [by left|]. lia. }
  destruct (rscan_spec s sub start (Z.to_nat (end_ - start - len sub + 1)) Hs)
    as [Hp1 Hp2].
  cbv zeta in Hp1, Hp2 |- *. split.
  - destruct Hp1 as [?|[? ?]]; [by left|right].
    split; [lia|]. split; [lia|]. apply occurs_startswith; [lia..|done].
  - intros j Hj Hje Hp Hocc.
    apply occurs_startswith in Hocc; [|lia..].
    rewrite Hp2 in Hocc; [done|lia..].
Qed.

(** The break of a window: the end of the last qualifying occurrence
    of the first separator, in priority order, that has one; the end
    of the window when no separator has one. *)
Lemma best_break_full self text start end_ seps :
  0 <= start <= end_ -> end_ <= len text ->
  ((forall sep j, sep ∈ seps -> ~ qualifies self text start end_ sep j)
   /\ best_break self text start end_ seps = end_)
  \/ exists before sep after pos,
      seps = before ++ sep :: after
      /\ (forall sep' j,
            sep' ∈ before -> ~ qualifies self text start end_ sep' j)
      /\ qualifies self text start end_ sep pos
      /\ (forall j, pos < j -> j + len sep <= end_ -> ~ occurs_at text sep j)
      /\ best_break self text start end_ seps = pos + len sep.
Proof.
  intros Hs He. induction seps as [|sep seps IH]; cbn [best_break].
  - left. split; [|done]. intros sep j Hin. by apply elem_of_nil in Hin.
  - destruct (rfind_spec text sep start end_) as [Hp Hlast]; [lia..|].
    cbv zeta in Hp, Hlast. set (p := rfind text sep start end_) in *.
    destruct (negb (p =? -1) && past_60_percent self start p) eqn:E.
    + right. exists [], sep, seps, p. split; [done|].
      split; [intros ? ? Hin; by apply elem_of_nil in Hin|].
      apply andb_prop in E as [Ep E60]. unfold past_60_percent in E60.
      apply Z.ltb_lt in E60. apply negb_true_iff, Z.eqb_neq in Ep.
      destruct Hp as [?|(? & ? & ?)]; [done|].
      split; [done|]. split; [|done]. intros j ? ?. apply Hlast; lia.
    + assert (Hnone : forall j, ~ qualifies self text start end_ sep j).
      { intros j (Hj1 & Hj2 & Hocc & H60).
        destruct (Z.lt_ge_cases p j) as [Hlt|Hge]; [by apply (Hlast j)|].
        apply andb_false_iff in E as [E|E].
        - apply negb_false_iff, Z.eqb_eq in E. lia.
        - unfold past_60_percent in E. apply Z.ltb_ge in E. lia. }
      destruct IH as [[Hall ->]|(before & s0 & after & pos & -> & Hb & Hq & Hl & ->)].
      * left. split; [|done]. intros s1 j Hin.
        apply elem_of_cons in Hin as [->|Hin]; [apply Hnone|by apply Hall].
      * right. exists (sep :: before), s0, after, pos. split; [done|].
        split; [|done]. intros s1 j Hin.
        apply elem_of_cons in Hin as [->|Hin]; [apply Hnone|by apply Hb].
Qed.

(** X4.  An iteration that does not end the loop appends a full window
    when no separator occurs past 60% of it; otherwise it cuts just
    after the last such occurrence of the first separator, in the
    order of the list, that has one. *)
Theorem cut_at_best_separator self text start chunks start' chunks' :
  0 <= max_chunk_size self -> 0 <= start < len text ->
  iteration self text start chunks = Running start' chunks' ->
  let end_ := start + max_chunk_size self in
  end_ < len text
  /\ ((chunks' = chunks ++ [slice text start end_]
       /\ len (slice text start end_) = max_chunk_size self
       /\ forall sep j,
           sep ∈ separators -> ~ qualifies self text start end_ sep j)
      \/ exists before sep after pos,
          separators = before ++ sep :: after
          /\ (forall sep' j,
                sep' ∈ before -> ~ qualifies self text start end_ sep' j)
          /\ qualifies self text start end_ sep pos
          /\ (forall j, pos < j -> j + len sep <= end_ ->
                        ~ occurs_at text sep j)
          /\ chunks' = chunks ++ [slice text start pos ++ sep]).
Proof.
  intros Hmax Hstart. unfold iteration. cbv zeta.
  destruct (Z.ltb_spec start (len text)); [|lia].
  destruct (Z.eqb_spec (Z.min (start + max_chunk_size self) (len text))
              (len text)) as [E|E]; [done|].
  assert (Hend : Z.min (start + max_chunk_size self) (len text)
                 = start + max_chunk_size self) by lia.
  rewrite Hend.
  destruct (best_break_full self text start (start + max_chunk_size self)
              separators)
    as [[Hall Hbb]|(before & sep & after & pos & Hsep & Hb & Hq & Hl & Hbb)];
    [lia..| |]; rewrite Hbb; intros [= _ <-]; (split; [lia|]).
  - left. split; [done|]. split; [|done]. rewrite slice_length; lia.
  - right. exists before, sep, after, pos.
    split; [done|]. split; [done|]. split; [done|]. split; [done|].
    destruct Hq as (? & ? & Hocc & _). pose proof (len_nonneg sep).
    rewrite (slice_app text start pos) by lia.
    unfold occurs_at in Hocc. by rewrite Hocc.
Qed.

Lemma cut_at_best_separator_witness :
  18 < len sentence
  /\ (([lit "rld, this "] = [] ++ [slice sentence 8 18]
       /\ len (slice sentence 8 18) = 10
       /\ forall sep j,
           sep ∈ separators -> ~ qualifies small sentence 8 18 sep j)
      \/ exists before sep after pos,
          separators = before ++ sep :: after
          /\ (forall sep' j,
                sep' ∈ before -> ~ qualifies small sentence 8 18 sep' j)
          /\ qualifies small sentence 8 18 sep pos
          /\ (forall j, pos < j -> j + len sep <= 18 ->
                        ~ occurs_at sentence sep j)
          /\ [lit "rld, this "] = [] ++ [slice sentence 8 pos ++ sep]).
Proof.
  apply (cut_at_best_separator small sentence 8 [] 16 [lit "rld, this "]).
  - simpl. lia.
  - vm_compute. split; [discriminate|reflexivity].
  - reflexivity.
Defined.

Lemma iterate_S n self text start chunks :
  iterate (S n) self text (Running start chunks)
  = iterate n self text (iteration self text start chunks).
Proof. reflexivity. Qed.

Lemma iterate_Finished n self text chunks :
  iterate n self text (Finished chunks) = Finished chunks.
Proof. by destruct n. Qed.

Lemma iterate_count self text n start chunks :
  0 < max_chunk_size self -> 0 <= overlap self ->
  5 * overlap self <= 3 * max_chunk_size self ->
  0 <= start -> len text - start <= Z.of_nat n ->
  exists chunks',
    iterate (S n) self text (Running start chunks) = Finished chunks'
    /\ (length chunks' <= length chunks + Z.to_nat (len text - start))%nat.
Proof.
  intros Hmax Hov Hsmall. revert start chunks.
  induction n as [|n IH]; intros start chunks Hstart Hn.
  - cbn [iterate]. unfold iteration.
    destruct (Z.ltb_spec start (len text)); [lia|].
    eexists. split; [done|]. lia.
  - rewrite iterate_S.
    destruct (Z.lt_ge_cases start (len text)) as [Hlt|Hge].
    + destruct (iteration_spec self text start chunks ltac:(lia) ltac:(lia))
        as (b & Hb & Hbm & Hlt' & [[_ E]|(_ & Hfar & E)]).
      * rewrite E, iterate_Finished. eexists. split; [done|].
        rewrite length_app. cbn [length]. lia.
      * pose proof (cursor_advances _ _ _ _ _ _ Hmax Hov Hsmall Hstart E).
        rewrite E.
        destruct (IH (if overlap self <? b then b - overlap self else b)
                    (chunks ++ [slice text start b]))
          as (chunks' & -> & Hc); [lia..|].
        eexists. split; [done|]. rewrite length_app in Hc. cbn [length] in Hc.
        lia.
    + unfold iteration. destruct (Z.ltb_spec start (len text)); [lia|].
      rewrite iterate_Finished. eexists. split; [done|]. lia.
Qed.

(** Every chunk that the loop appends holds at least one character
    when the window size is positive. *)
Lemma iterate_nonempty self text n st :
  0 < max_chunk_size self ->
  (Forall (fun chunk => 1 <= len chunk) (emitted st)
   /\ match st with Running start _ => 0 <= start | Finished _ => True end) ->
  Forall (fun chunk => 1 <= len chunk) (emitted (iterate n self text st)).
Proof.
  intros Hmax. revert st. induction n as [|n IH]; intros st [Hall Hs]; [done|].
  destruct st as [start chunks|chunks]; [|done].
  cbn [iterate emitted] in *. apply IH.
  destruct (Z.lt_ge_cases start (len text)) as [Hlt|Hge].
  - destruct (iteration_spec self text start chunks ltac:(lia) ltac:(lia))
      as (b & Hb & Hbm & Hlt' & [[_ ->]|(_ & _ & ->)]); cbn [emitted].
    all: split; [|try done].
    all: try (apply Forall_app; split; [done|]; apply Forall_singleton;
              rewrite slice_length; lia).
    destruct (Z.ltb_spec (overlap self) b); lia.
  - unfold iteration. destruct (Z.ltb_spec start (len text)); [lia|done].
Qed.

(** X5.  With a positive window and an overlap of at most 60% of it,
    every iteration that does not end the loop moves the cursor
    forward, and [chunk_text] returns within a number of iterations
    bounded by the length of the cleaned text, with at most as many
    chunks as that text has characters, none of them empty. *)
Theorem chunk_text_progress self text :
  chonkie self = None ->
  0 < max_chunk_size self -> 0 <= overlap self ->
  5 * overlap self <= 3 * max_chunk_size self ->
  (forall start chunks start' chunks',
      0 <= start ->
      iteration self (normalized text) start chunks = Running start' chunks' ->
      start < start')
  /\ exists chunks,
      chunk_text (S (length (normalized text))) self text = Returns chunks
      /\ (length chunks <= length (normalized text))%nat
      /\ Forall (fun chunk => 1 <= len chunk) chunks.
Proof.
  intros Hmanual Hmax Hov Hsmall. split.
  { intros start chunks start' chunks' Hs.
    by apply cursor_advances. }
  unfold chunk_text. rewrite Hmanual. fold (normalized text).
  unfold _split_text_manual.
  pose proof (iterate_nonempty self (normalized text)
                (S (length (normalized text))) (Running 0 []) Hmax) as Hne.
  destruct (iterate_count self (normalized text) (length (normalized text))
              0 [] Hmax Hov Hsmall) as (chunks & E & Hc);
    [lia|unfold len; lia|].
  rewrite E in Hne |- *. exists chunks. split; [done|]. split.
  - cbn [length] in Hc. unfold len in Hc. lia.
  - apply Hne. split; [constructor|done].
Qed.

Lemma chunk_text_progress_witness :
  (forall start chunks start' chunks',
      0 <= start ->
      iteration small (normalized sentence) start chunks
      = Running start' chunks' ->
      start < start')
  /\ exists chunks,
      chunk_text (S (length (normalized sentence))) small sentence
      = Returns chunks
      /\ (length chunks <= length (normalized sentence))%nat
      /\ Forall (fun chunk => 1 <= len chunk) chunks.
Proof.
  apply (chunk_text_progress small sentence); [reflexivity|simpl; lia..].
Defined.

Lemma strip_trimmed s : strip s = [] \/ trimmed (strip s).
Proof.
  destruct (strip_ends s) as [?|(c & rest & d & E & Hc & Hl & Hd)];
    [by left|right].
  split; [exists c; by rewrite E|by exists d].
Qed.

Lemma trimmed_join a b :
  trimmed a -> trimmed b -> trimmed (a ++ lit " " ++ b).
Proof.
  intros [(c & Hc & ?) _] [_ (d & Hd & ?)]. split.
  - exists c. split; [|done]. by destruct a.
  - exists d. split; [|done]. apply last_Some in Hd as [l' ->].
    rewrite !app_assoc. apply last_snoc.
Qed.

Lemma nonempty_true s : nonempty s = true <-> s <> [].
Proof. by destruct s. Qed.

(** What [chunk_document] keeps of every chunk it flushes. *)
Lemma coalesce_kept self m chunks acc :
  let kept c := 1 <= len c /\ m <= len c /\ trimmed c in
  Forall kept acc.1 -> (acc.2 = [] \/ trimmed acc.2) ->
  Forall kept (foldl (coalesce self m) acc chunks).1
  /\ ((foldl (coalesce self m) acc chunks).2 = []
      \/ trimmed (foldl (coalesce self m) acc chunks).2).
Proof.
  intros kept. revert acc.
  induction chunks as [|chunk chunks IH]; intros [merged current] Hm Hc;
    [done|].
  cbn [foldl]. apply IH; unfold coalesce; cbn [fst snd] in *.
  - destruct (nonempty (strip chunk)); cbn [negb]; [|done].
    destruct (_ <=? _); cbn [fst]; [done|].
    unfold flush. destruct (nonempty current && (m <=? len current)) eqn:E;
      [|done].
    apply andb_prop in E as [E1 E2]. apply Forall_app. split; [done|].
    apply Forall_singleton. pose proof (nonempty_len _ E1).
    apply nonempty_true in E1. apply Z.leb_le in E2.
    destruct Hc as [?|?]; [done|]. unfold kept. split; [done|split; done].
  - destruct (nonempty (strip chunk)) eqn:E; cbn [negb]; [|done].
    apply nonempty_true in E.
    destruct (strip_trimmed chunk) as [?|Ht]; [done|].
    destruct (_ <=? _); cbn [snd]; [|by right].
    destruct (nonempty current) eqn:Ec; [|by right].
    apply nonempty_true in Ec. destruct Hc as [?|Hc]; [done|].
    right. by apply trimmed_join.
Qed.

Lemma merge_small_kept self m chunks :
  Forall (fun c => 1 <= len c /\ m <= len c /\ trimmed c)
         (merge_small self m chunks).
Proof.
  unfold merge_small.
  destruct (coalesce_kept self m chunks ([], [])) as [H1 H2];
    [constructor|by left|].
  destruct (foldl _ _ _) as [merged current]. cbn [fst snd] in *.
  unfold flush. destruct (nonempty current && (m <=? len current)) eqn:E;
    [|done].
  apply andb_prop in E as [E1 E2]. apply Forall_app. split; [done|].
  apply Forall_singleton. pose proof (nonempty_len _ E1).
  apply nonempty_true in E1. apply Z.leb_le in E2.
  destruct H2 as [?|?]; [done|]. split; [done|split; done].
Qed.

Lemma filter_chunks_length chunks out :
  _filter_chunks chunks = Returns out -> (length out <= 3)%nat.
Proof.
  unfold _filter_chunks. destruct (Nat.leb_spec (length chunks) 3).
  - by intros [= <-].
  - destruct (index chunks 0); [|done..].
    destruct (index_from_end chunks 2); [|done..].
    destruct (index chunks _); [|done..]. cbn. by intros [= <-].
Qed.

(** X6.  Whatever produced the raw chunks, [chunk_document] returns at
    most three chunks; each has at least one character and at least
    [min_chunk_size], and neither begins nor ends with whitespace. *)
Theorem chunk_document_kept self content min_chunk_size fuel out :
  chunk_document fuel self content min_chunk_size = Returns out ->
  (length out <= 3)%nat
  /\ Forall (fun chunk =>
               1 <= len chunk /\ min_chunk_size <= len chunk
               /\ trimmed chunk) out.
Proof.
  unfold chunk_document.
  destruct (chunk_text fuel self content) as [chunks| |]; [|done..].
  cbn [mbind exec_bind bind]. intros Hf.
  split; [by eapply filter_chunks_length|].
  apply Forall_forall. intros chunk Hin.
  apply (filter_chunks_subset _ _ _ Hf) in Hin.
  pose proof (merge_small_kept self min_chunk_size chunks) as Hk.
  rewrite Forall_forall in Hk. by apply Hk.
Qed.

Lemma chunk_document_kept_witness :
  exists out,
    chunk_document 20 small sentence 3 = Returns out
    /\ (length out <= 3)%nat
    /\ Forall (fun chunk => 1 <= len chunk /\ 3 <= len chunk /\ trimmed chunk)
              out.
Proof.
  destruct (chunk_document 20 small sentence 3) as [out| |] eqn:Hrun;
    [|vm_compute in Hrun; discriminate..].
  exists out. split; [reflexivity|].
  exact (chunk_document_kept small sentence 3 20 out Hrun).
Defined.



(** X17.  A document whose cleaned text fits in one window and is at
    least [min_chunk_size] long comes back as one chunk, the cleaned
    text. *)
Theorem medium_document_one_chunk self content min_chunk_size fuel :
  chonkie self = None ->
  0 < len (normalized content) ->
  min_chunk_size <= len (normalized content) <= max_chunk_size self ->
  chunk_document (S fuel) self content min_chunk_size
  = Returns [normalized content].
Proof.
  intros Hmanual Hpos Hlen. unfold chunk_document, chunk_text.
  rewrite Hmanual. fold (normalized content). unfold _split_text_manual.
  rewrite iterate_single_window by lia. cbn [mbind exec_bind bind].
  assert (Hs : strip (normalized content) = normalized content).
  { destruct (normalized_trimmed content) as [E|Ht]; [by rewrite E|].
    by apply trimmed_strip. }
  assert (Hm : merge_small self min_chunk_size [normalized content]
               = [normalized content]).
  { unfold merge_small. cbn [foldl]. unfold coalesce. rewrite Hs.
    destruct (normalized content) as [|c rest] eqn:E; [by cbn in Hpos|].
    cbn [nonempty negb]. change (len []) with 0.
    destruct (Z.leb_spec (0 + len (c :: rest)) (max_chunk_size self)); [|lia].
    unfold flush. cbn [nonempty andb].
    by destruct (Z.leb_spec min_chunk_size (len (c :: rest))); [|lia]. }
  by rewrite Hm.
Qed.

Lemma medium_document_one_chunk_witness :
  chunk_document 1 small (lit " a  b ") 3 = Returns [lit "a b"].
Proof.
  apply (medium_document_one_chunk small (lit " a  b ") 3 0);
    [reflexivity|vm_compute; reflexivity|].
  vm_compute. split; discriminate.
Defined.

Lemma sublist_lookup1 {X} (l : list X) i a rest :
  l !! i = Some a -> rest `sublist_of` drop (S i) l ->
  (a :: rest) `sublist_of` l.
Proof.
  intros Hi Hrest. rewrite <- (take_drop_middle l i a Hi).
  apply sublist_inserts_l. by apply sublist_skip.
Qed.

Lemma count_reduction_policy_positions chunks :
  (5 <= length chunks)%nat ->
  exists c0 c1 c2,
    chunks !! 0%nat = Some c0
    /\ chunks !! (length chunks / 2)%nat = Some c1
    /\ chunks !! (length chunks - 2)%nat = Some c2
    /\ _filter_chunks chunks = Returns [c0; c1; c2].
Proof.
  intros Hn. unfold _filter_chunks.
  destruct (Nat.leb_spec (length chunks) 3); [lia|].
  destruct (lookup_lt_is_Some_2 chunks 0) as [c0 H0]; [lia|].
  destruct (lookup_lt_is_Some_2 chunks (length chunks / 2)) as [c1 H1].
  { apply Nat.Div0.div_lt_upper_bound. lia. }
  destruct (lookup_lt_is_Some_2 chunks (length chunks - 2)) as [c2 H2];
    [lia|].
  exists c0, c1, c2. unfold index_from_end, index.
  destruct (Nat.leb_spec 2 (length chunks)); [|lia].
  cbn [andb Nat.ltb Nat.leb]. by rewrite H0, H1, H2.
Qed.

(** X8.  For exactly four chunks [_filter_chunks] returns the first
    chunk and the third one twice: the middle index and the index
    [-2] coincide.  For five chunks or more it returns chunks at three
    different positions, in their order, the last chunk never among
    the positions it reads. *)
Theorem filter_chunks_positions chunks :
  (length chunks = 4%nat ->
   exists c0 c1 c2 c3,
     chunks = [c0; c1; c2; c3]
     /\ _filter_chunks chunks = Returns [c0; c2; c2])
  /\ ((5 <= length chunks)%nat ->
      exists out,
        _filter_chunks chunks = Returns out
        /\ out `sublist_of` take (length chunks - 1) chunks
        /\ length out = 3%nat).
Proof.
  split.
  - intros Hn. destruct chunks as [|c0 [|c1 [|c2 [|c3 [|? ?]]]]]; try done.
    by exists c0, c1, c2, c3.
  - intros Hn. destruct (count_reduction_policy_positions chunks Hn)
      as (c0 & c1 & c2 & H0 & H1 & H2 & ->).
    eexists. split; [done|]. split; [|done].
    set (n := length chunks) in *.
    assert (Ht : forall i, (i < n - 1)%nat ->
                           take (n - 1) chunks !! i = chunks !! i)
      by (intros i Hi; by rewrite lookup_take_lt).
    apply (sublist_lookup1 _ 0); [by rewrite Ht by lia|].
    assert (Hhalf : (0 < n / 2 /\ n / 2 < n - 2)%nat).
    { pose proof (Nat.div_mod_eq n 2).
      pose proof (Nat.mod_upper_bound n 2 ltac:(lia)). lia. }
    apply (sublist_lookup1 _ (n / 2 - 1)).
    { rewrite lookup_drop, Ht by lia. rewrite <- H1. f_equal. lia. }
    apply (sublist_lookup1 _ (n - 2 - n / 2 - 1)); [|apply sublist_nil_l].
    rewrite !lookup_drop, Ht by lia. rewrite <- H2. f_equal. lia.
Qed.

Lemma filter_chunks_positions_witness :
  _filter_chunks [A; B; C; D] = Returns [A; C; C]
  /\ exists out,
      _filter_chunks [A; B; C; D; E] = Returns out
      /\ out `sublist_of` [A; B; C; D]
      /\ length out = 3%nat.
Proof.
  split.
  - destruct (proj1 (filter_chunks_positions [A; B; C; D]) eq_refl)
      as (c0 & c1 & c2 & c3 & [= <- <- <- <-] & H).
    exact H.
  - apply (proj2 (filter_chunks_positions [A; B; C; D; E])). simpl. lia.
Defined.

End ChunkerMore.

(** ** Further properties of the merger *)

Module MergerMore.
Import Py HierarchicalMerger MergeSpec MergeSpecMore.
Import Examples MoreExamples MergerProofs.

Lemma adjacent_pairs_concat l :
  concat (adjacent_pairs l) ++ odd_tail l = l.
Proof.
  induction l as [l IH] using (induction_ltof1 _ (@length _)).
  destruct l as [|a [|b rest]]; [reflexivity..|].
  cbn [adjacent_pairs concat app]. do 2 f_equal.
  rewrite <- (IH rest) at 3 by (unfold ltof; simpl; lia). f_equal.
  unfold odd_tail. cbn [length].
  replace (S (S (length rest)) mod 2)%nat with (length rest mod 2)%nat.
  - destruct (length rest mod 2 =? 1)%nat eqn:E; [|done].
    destruct rest; [done|]. by rewrite !last_cons_cons.
  - change (S (S (length rest))) with (2 + length rest)%nat.
    rewrite <- Nat.Div0.add_mod_idemp_l. done.
Qed.

Lemma adjacent_pairs_two l : Forall (fun p => length p = 2%nat) (adjacent_pairs l).
Proof.
  induction l as [l IH] using (induction_ltof1 _ (@length _)).
  destruct l as [|a [|b rest]]; [constructor..|].
  cbn [adjacent_pairs]. constructor; [done|].
  apply IH. unfold ltof. simpl. lia.
Qed.

(** X9.  [_create_pairs] raises no [IndexError]; it returns
    [len(documents) // 2] pairs of two documents each, and the pairs
    laid end to end, followed by the unpaired last document of a list
    of odd length, are the list. *)
Theorem create_pairs_partition documents :
  exists pairs,
    _create_pairs documents = Returns pairs
    /\ length pairs = (length documents / 2)%nat
    /\ Forall (fun p => length p = 2%nat) pairs
    /\ concat pairs ++ odd_tail documents = documents.
Proof.
  exists (adjacent_pairs documents). split; [apply create_pairs_spec|].
  split; [apply adjacent_pairs_length|].
  split; [apply adjacent_pairs_two|apply adjacent_pairs_concat].
Qed.

Lemma requests_length env r level :
  length (requests env r level) = (length level / 2)%nat.
Proof. unfold requests. by rewrite length_imap, adjacent_pairs_length. Qed.

Lemma half_split n : (n / 2 + ceil_half n = n)%nat.
Proof.
  rewrite ceil_half_split. pose proof (Nat.div_mod_eq n 2). lia.
Qed.

(** X10.  A run of [merge_documents] on [n] documents makes at most
    [n - 1] calls of [summarize], none for an empty list or a single
    document, and exactly [n - 1] on a non-empty list when no call
    fails. *)
Theorem summarize_call_bound env (h : store) (d : ref) documents :
  h !! d = Some documents ->
  exists m h',
    merge_documents env h d = Returns (m, h')
    /\ (length (calls m) <= length documents - 1)%nat
    /\ (documents <> [] ->
        (forall r level,
            reaches env documents r level -> (1 < length level)%nat ->
            failures (outcomes env r level) = 0%nat) ->
        length (calls m) = (length documents - 1)%nat).
Proof.
  intros Hd. destruct (Nat.le_gt_cases (length documents) 1) as [Hlen|Hlen].
  { rewrite (merge_documents_short _ _ _ _ Hd) by done.
    eexists _, _. split; [done|]. cbn [calls length]. split; lia. }
  destruct (merge_documents_invariant env h d documents
    (fun r level log =>
       reaches env documents r level
       /\ (length log + Nat.max 1 (length level) <= length documents)%nat
       /\ ((forall r level,
               reaches env documents r level -> (1 < length level)%nat ->
               failures (outcomes env r level) = 0%nat) ->
           (1 <= length level)%nat
           /\ (length log + length level = length documents)%nat)) Hd Hlen)
    as (r & level & log & h' & -> & Hl & (_ & Hle & Heq) & _).
  - split; [by constructor|]. rewrite initial_level_perm. cbn [length].
    split; [lia|]. intros _. lia.
  - intros r level log (Hreach & Hle & Heq) Hl.
    pose proof (next_level_length env r level) as Hn.
    pose proof (half_split (length level)).
    pose proof (ceil_half_lt _ Hl).
    split; [by apply reaches_step|].
    rewrite length_app, requests_length. split; [lia|].
    intros Hok. destruct (Heq Hok) as [_ Heq'].
    rewrite (Hok _ _ Hreach Hl) in Hn. lia.
  - eexists _, _. split; [done|]. cbn [calls]. split; [lia|].
    intros _ Hok. destruct (Heq Hok). lia.
Qed.

Lemma summarize_call_bound_witness :
  exists m h',
    merge_documents steady (holding [A; B; C; D; E]) 1 = Returns (m, h')
    /\ (length (calls m) <= 4)%nat
    /\ length (calls m) = 4%nat.
Proof.
  destruct (summarize_call_bound steady (holding [A; B; C; D; E]) 1
              [A; B; C; D; E] eq_refl) as (m & h' & Hrun & Hle & Heq).
  exists m, h'. split; [exact Hrun|]. split; [exact Hle|].
  apply Heq; [discriminate|].
  intros r level _ _. apply never_fails_outcomes.
  intros ? ? ? ?. eexists. reflexivity.
Defined.

(** X11.  A run of [merge_documents] on [n] documents makes at most
    [ceil(log2 n)] rounds, whatever calls fail, and ends on a level of
    at most one document. *)
Theorem rounds_bound env (h : store) (d : ref) documents :
  h !! d = Some documents ->
  exists m h',
    merge_documents env h d = Returns (m, h')
    /\ (rounds m <= Nat.log2_up (length documents))%nat
    /\ (length (final_level m) <= 1)%nat.
Proof.
  intros Hd. destruct (Nat.le_gt_cases (length documents) 1) as [Hlen|Hlen].
  { rewrite (merge_documents_short _ _ _ _ Hd) by done.
    eexists _, _. split; [done|]. cbn [rounds final_level]. split; lia. }
  destruct (merge_documents_invariant env h d documents
    (fun r level _ =>
       (r + Nat.log2_up (length level)
        <= Nat.log2_up (length documents))%nat) Hd Hlen)
    as (r & level & log & h' & -> & Hl & Hr & _).
  - by rewrite initial_level_perm.
  - intros r level log Hr Hl.
    pose proof (next_level_length env r level) as Hn.
    rewrite (log2_up_ceil_half _ Hl) in Hr.
    pose proof (Nat.log2_up_le_mono (length (next_level_of env r level))
                  (ceil_half (length level)) ltac:(lia)).
    lia.
  - eexists _, _. split; [done|]. cbn [rounds final_level]. split; lia.
Qed.

Lemma rounds_bound_witness :
  exists m h',
    merge_documents flaky (holding [A; B; C; D; E]) 1 = Returns (m, h')
    /\ (rounds m <= Nat.log2_up 5)%nat
    /\ (length (final_level m) <= 1)%nat.
Proof.
  exact (rounds_bound flaky (holding [A; B; C; D; E]) 1 [A; B; C; D; E]
           eq_refl).
Defined.





(** X13.  The order in which the futures complete only permutes the
    summaries of a round: two runs of a round that get the same
    answers from the service make the same calls and leave levels
    that are permutations of each other, of the same length, with the
    unpaired document last in both. *)
Theorem completion_order_permutes env env' r (h : store)
    (current_level : ref) level :
  h !! current_level = Some level ->
  (forall i text, backend env r i text false = backend env' r i text false) ->
  exists next_level h1 made next next_level' h1' made' next',
    merge_round env r h current_level = Returns (next_level, h1, made)
    /\ h1 !! next_level = Some next
    /\ merge_round env' r h current_level = Returns (next_level', h1', made')
    /\ h1' !! next_level' = Some next'
    /\ made = made'
    /\ next ≡ₚ next'
    /\ length next = length next'
    /\ (Nat.Odd (length level) ->
        last next = last level /\ last next' = last level).
Proof.
  intros Hcur Hsame. eexists _, _, _, _, _, _, _, _.
  split; [by apply merge_round_spec|]. split; [apply lookup_insert_eq|].
  split; [by apply merge_round_spec|]. split; [apply lookup_insert_eq|].
  assert (Hout : outcomes env r level = outcomes env' r level).
  { unfold outcomes. apply imap_ext. intros i pair _.
    unfold _merge_pair, summarize. cbn [snd]. by rewrite Hsame. }
  assert (Hperm : next_level_of env r level ≡ₚ next_level_of env' r level).
  { unfold next_level_of. by rewrite !survivors_perm, Hout. }
  split; [done|]. split; [done|]. split; [by rewrite Hperm|].
  intros Hodd. unfold next_level_of.
  destruct (odd_tail_cases level) as [(_ & x & _ & Hl & ->)|(E & _)].
  - rewrite !last_snoc. by rewrite Hl.
  - apply Nat.eqb_neq in E. destruct Hodd as [k Hk]. exfalso. apply E.
    rewrite Hk, Nat.add_comm, Nat.mul_comm. apply Nat.Div0.mod_add.
Qed.

Lemma completion_order_permutes_witness :
  exists next_level h1 made next_level' h1' made',
    merge_round steady 0 (holding [A; B; C; D; E]) 1
    = Returns (next_level, h1, made)
    /\ h1 !! next_level = Some [A ++ [LF; LF] ++ B; C ++ [LF; LF] ++ D; E]
    /\ merge_round backwards 0 (holding [A; B; C; D; E]) 1
       = Returns (next_level', h1', made')
    /\ h1' !! next_level' = Some [C ++ [LF; LF] ++ D; A ++ [LF; LF] ++ B; E]
    /\ made = made'.
Proof.
  destruct (completion_order_permutes steady backwards 0
              (holding [A; B; C; D; E]) 1 [A; B; C; D; E] eq_refl)
    as (nl & h1 & made & next & nl' & h1' & made' & next'
        & H1 & H2 & H3 & H4 & H5 & _); [reflexivity|].
  exists nl, h1, made, nl', h1', made'.
  split; [exact H1|]. split.
  { vm_compute in H1. injection H1 as <- <- _. reflexivity. }
  split; [exact H3|]. split; [|exact H5].
  vm_compute in H3. injection H3 as <- <- _. reflexivity.
Defined.


End MergerMore.

(** ** Properties of the formatting and of the pipeline *)

Module PipelineProofs.
Import Py HierarchicalMerger MergeSpec Helpers SummaryPipeline TextSpec.
Import FormatSpec.
Import Examples MoreExamples MergerProofs ChunkerProofs ChunkerMore.

Lemma split_on_cons sep s : exists piece pieces, split_on sep s = piece :: pieces.
Proof.
  induction s as [|c s (p & ps & IH)]; cbn; [by eexists _, _|].
  destruct (Ascii.eqb c sep); [by eexists _, _|]. rewrite IH. by eexists _, _.
Qed.

(** The pieces of a split hold no separator. *)
Lemma split_on_pieces s : Forall no_newline (split_on LF s).
Proof.
  induction s as [|c s IH]; cbn.
  - constructor; [|constructor]. by intros ?%elem_of_nil.
  - destruct (Ascii.eqb_spec c LF) as [->|Hc].
    + constructor; [by intros ?%elem_of_nil|done].
    + destruct (split_on LF s) as [|p ps].
      { constructor; [|constructor].
        intros [?|?%elem_of_nil]%elem_of_cons; done. }
      apply Forall_cons_1 in IH as [Hp Hps]. constructor; [|done].
      intros [?|?]%elem_of_cons; [done|by apply Hp].
Qed.

(** Splitting what [join] made of lines without a line feed gives the
    lines back. *)
Lemma split_on_join line lines :
  Forall no_newline (line :: lines) ->
  split_on LF (join [LF] (line :: lines)) = line :: lines.
Proof.
  revert line. induction lines as [|l2 lines IH]; intros line Hall.
  - apply Forall_cons_1 in Hall as [Hl _]. cbn [join].
    induction line as [|c line IHl]; [done|]. cbn [split_on].
    destruct (Ascii.eqb_spec c LF) as [->|_].
    { exfalso. apply Hl, list_elem_of_here. }
    rewrite IHl; [done|]. intros ?. by apply Hl, list_elem_of_further.
  - apply Forall_cons_1 in Hall as [Hl Hall].
    change (join [LF] (line :: l2 :: lines))
      with (line ++ [LF] ++ join [LF] (l2 :: lines)).
    induction line as [|c line IHl].
    + cbn [app split_on]. rewrite Ascii.eqb_refl. by rewrite IH.
    + cbn [app split_on]. destruct (Ascii.eqb_spec c LF) as [->|_].
      { exfalso. apply Hl, list_elem_of_here. }
      cbn [app] in IHl. rewrite IHl; [done|].
      intros ?. by apply Hl, list_elem_of_further.
Qed.

Lemma lstrip_elem_of s x : x ∈ lstrip s -> x ∈ s.
Proof.
  induction s as [|c s IH]; [done|]. cbn [lstrip].
  destruct (isspace c); [|done]. intros ?. by apply list_elem_of_further, IH.
Qed.

Lemma strip_elem_of s x : x ∈ strip s -> x ∈ s.
Proof.
  unfold strip, rstrip. intros H.
  apply list_elem_of_In, (proj2 (in_rev _ _)), list_elem_of_In in H.
  apply lstrip_elem_of in H.
  apply list_elem_of_In, (proj2 (in_rev _ _)), list_elem_of_In in H.
  by apply lstrip_elem_of.
Qed.

Lemma bullet_points_lines lines :
  Forall no_newline lines -> Forall bullet_line (bullet_points lines).
Proof.
  induction 1 as [|line lines Hl _ IH]; cbn [bullet_points]; [constructor|].
  assert (Hn : no_newline (strip line)).
  { intros ?. by apply Hl, strip_elem_of. }
  destruct (SmartChunker.nonempty (strip line)) eqn:Ene; cbn [andb]; [|done].
  apply nonempty_true in Ene.
  destruct (strip_trimmed line) as [?|Ht]; [done|].
  destruct (startswith (strip line) (lit "- ")) eqn:Es; cbn [negb andb].
  - constructor; [|done]. split; [done|split; done].
  - constructor; [|done]. split; [cbn; by destruct (strip line)|]. split.
    + destruct Ht as [_ (d & Hd & ?)]. split; [by exists "-"%char|].
      exists d. split; [|done]. apply last_Some in Hd as [l' ->].
      rewrite app_assoc. apply last_snoc.
    + intros [?|[?|?]%elem_of_cons]%elem_of_cons; [done|done|by apply Hn].
Qed.

Lemma bullet_points_fixed lines :
  Forall bullet_line lines -> bullet_points lines = lines.
Proof.
  induction 1 as [|line lines (Hs & Ht & _) _ IH]; [done|].
  cbn [bullet_points]. rewrite (trimmed_strip _ Ht), Hs.
  destruct line; [by destruct Ht as [(? & ? & _) _]|].
  cbn. by rewrite IH.
Qed.

(** X14.  In the bullets style the formatted summary is empty or made
    of lines that each begin with ["- "] and neither begin nor end
    with whitespace, so it has no blank line; and in every style
    formatting a formatted summary again changes nothing. *)
Theorem format_final_summary_bullets summary style :
  format_final_summary (format_final_summary summary style) style
  = format_final_summary summary style
  /\ (style = lit "bullets" ->
      format_final_summary summary style = []
      \/ Forall (fun line => startswith line (lit "- ") = true /\ trimmed line)
                (split_on LF (format_final_summary summary style))).
Proof.
  unfold format_final_summary. destruct (bool_decide_reflect (style = lit "bullets")) as [->|Hs];
    [|by split].
  pose proof (bullet_points_lines _ (split_on_pieces summary)) as Hb.
  destruct (bullet_points (split_on LF summary)) as [|line lines] eqn:E.
  { split; [done|]. by left. }
  assert (Hn : Forall no_newline (line :: lines)).
  { eapply Forall_impl; [exact Hb|]. by intros ? (_ & _ & ?). }
  cbv zeta. rewrite (split_on_join _ _ Hn). split.
  - by rewrite (bullet_points_fixed _ Hb).
  - intros _. right. eapply Forall_impl; [exact Hb|]. by intros ? (? & ? & _).
Qed.

Lemma format_final_summary_bullets_witness :
  format_final_summary notes (lit "bullets") = notes_bulleted
  /\ Forall (fun line => startswith line (lit "- ") = true /\ trimmed line)
            (split_on LF notes_bulleted).
Proof.
  assert (E : format_final_summary notes (lit "bullets") = notes_bulleted)
    by (vm_compute; reflexivity).
  split; [exact E|].
  destruct (proj2 (format_final_summary_bullets notes (lit "bullets")) eq_refl)
    as [H|H]; rewrite E in H; [discriminate|exact H].
Defined.

(** A run of [merge_documents] makes fewer calls than it is given
    documents. *)
Lemma merge_calls_le env (h : store) (d : ref) documents :
  h !! d = Some documents ->
  exists m h',
    merge_documents env h d = Returns (m, h')
    /\ (length (calls m) <= length documents - 1)%nat
    /\ forall l v, l <> d -> h !! l = Some v -> h' !! l = Some v.
Proof.
  intros Hd. destruct (Nat.le_gt_cases (length documents) 1) as [Hlen|Hlen].
  { rewrite (merge_documents_short _ _ _ _ Hd) by done.
    eexists _, _. split; [done|]. cbn [calls length]. split; [lia|done]. }
  destruct (merge_documents_invariant env h d documents
    (fun _ level log =>
       (length log + Nat.max 1 (length level) <= length documents)%nat)
    Hd Hlen)
    as (r & level & log & h' & -> & _ & Hle & _ & Hframe).
  - rewrite initial_level_perm. cbn [length]. lia.
  - intros r level log Hle Hl.
    pose proof (next_level_length env r level).
    pose proof (ceil_half_lt _ Hl).
    pose proof (ceil_half_split (length level)).
    pose proof (Nat.div_mod_eq (length level) 2).
    rewrite length_app. unfold requests.
    rewrite length_imap, adjacent_pairs_length. lia.
  - eexists _, _. split; [done|]. cbn [calls]. split; [lia|done].
Qed.

(** The loop over the documents appends to [all_chunks] what
    [chunk_document] returns for each, three chunks at most, and
    writes to no other list. *)
Lemma gather_spec fuel chunker documents :
  forall (h h' : store) (all_chunks : ref) v,
    h !! all_chunks = Some v ->
    gather fuel chunker h all_chunks documents = Returns h' ->
    exists lists,
      h' = <[all_chunks := v ++ concat lists]> h
      /\ length lists = length documents
      /\ Forall2 (fun document chunks =>
                    SmartChunker.chunk_document fuel chunker document.2 100
                    = Returns chunks) documents lists.
Proof.
  induction documents as [|[path content] documents IH];
    intros h h' l v Hv; cbn [gather].
  - intros [= <-]. exists []. cbn. rewrite app_nil_r.
    split; [by rewrite insert_id|]. split; [done|constructor].
  - destruct (SmartChunker.chunk_document fuel chunker content 100)
      as [chunks| |] eqn:E; [|done..].
    cbn [mbind exec_bind bind]. intros Hg.
    assert (Hstep : (if truthy chunks then extend h l chunks else h)
                    = <[l := v ++ chunks]> h).
    { destruct chunks; cbn [truthy].
      - by rewrite app_nil_r, insert_id.
      - unfold extend. by rewrite (deref_lookup _ _ _ Hv). }
    rewrite Hstep in Hg.
    destruct (IH _ _ _ (v ++ chunks) (lookup_insert_eq _ _ _) Hg)
      as (lists & -> & Hlen & Hall).
    exists (chunks :: lists). cbn [concat length].
    rewrite insert_insert_eq, <- app_assoc.
    split; [done|]. split; [by rewrite Hlen|]. by constructor.
Qed.

Lemma gather_nothing fuel chunker (h : store) (all_chunks : ref) documents :
  Forall (fun document =>
            SmartChunker.chunk_document fuel chunker document.2 100
            = Returns []) documents ->
  gather fuel chunker h all_chunks documents = Returns h.
Proof.
  induction 1 as [|[path content] documents Hd _ IH]; [done|].
  cbn [gather]. cbn [snd] in Hd. by rewrite Hd.
Qed.

Lemma new_list_fresh (h : store) :
  h !! (new_list h).1 = None /\ h ⊆ (new_list h).2.
Proof.
  unfold new_list. cbn [fst snd].
  assert (h !! fresh (dom h) = None) by apply not_elem_of_dom, is_fresh.
  split; [done|]. by apply insert_subseteq.
Qed.

(** X15.  When no document gives a chunk, and so when there is no
    document, [_summarize_documents] returns the empty string without
    calling [summarize] and without writing a file, whatever [save_to]
    and [OUTPUT_FILE] are; [summarize_texts] does for texts that are
    all blank, without chunking any. *)
Theorem nothing_to_summarize fuel env can_write chunker settings (h : store)
    documents texts save_to :
  (Forall (fun document =>
             SmartChunker.chunk_document fuel chunker document.2 100
             = Returns []) documents ->
   exists h',
     _summarize_documents fuel env can_write chunker settings h documents
                          save_to
     = Done ([], MkEffects [] [], h')
     /\ h ⊆ h')
  /\ (Forall (fun t => Forall (fun c => isspace c = true) t) texts ->
      summarize_texts fuel env can_write chunker settings h texts save_to
      = Done ([], MkEffects [] [], h)).
Proof.
  split.
  - intros Hnone. unfold _summarize_documents.
    destruct documents as [|document documents]; [by exists h|].
    cbn [truthy negb]. destruct (new_list_fresh h) as [_ Hsub].
    unfold new_list in *. cbn [snd] in Hsub.
    rewrite (gather_nothing _ _ _ _ _ Hnone). cbn [lift and_then].
    rewrite (deref_lookup _ _ []) by apply lookup_insert_eq.
    cbn [truthy negb]. by eexists.
  - intros Hblank. unfold summarize_texts.
    match goal with
    | |- context [fmap _ ?l] => assert (l = []) as ->; [|done]
    end.
    induction Hblank as [|t texts Ht _ IH]; [done|].
    rewrite filter_cons_False; [done|].
    rewrite (strip_blank t Ht). by destruct (truthy t).
Qed.

Lemma nothing_to_summarize_witness :
  (exists h',
      _summarize_documents 5 steady (fun _ _ => true) small
        (MkSettings (lit "bullets") (Some (lit "out.txt")))
        (holding [A]) [(lit "a.txt", lit "  too short "); (lit "b.txt", [])]
        (Some (lit "summary.txt"))
      = Done ([], MkEffects [] [], h')
      /\ holding [A] ⊆ h')
  /\ summarize_texts 5 steady (fun _ _ => true) small
       (MkSettings (lit "bullets") (Some (lit "out.txt")))
       (holding [A]) [lit "  "; []] None
     = Done ([], MkEffects [] [], holding [A]).
Proof.
  destruct (nothing_to_summarize 5 steady (fun _ _ => true) small
              (MkSettings (lit "bullets") (Some (lit "out.txt")))
              (holding [A])
              [(lit "a.txt", lit "  too short "); (lit "b.txt", [])]
              [lit "  "; []] (Some (lit "summary.txt"))) as [Hdocs _].
  destruct (nothing_to_summarize 5 steady (fun _ _ => true) small
              (MkSettings (lit "bullets") (Some (lit "out.txt")))
              (holding [A]) [] [lit "  "; []] None) as [_ Htexts].
  split.
  - apply Hdocs. repeat constructor.
  - apply Htexts. repeat constructor.
Defined.

Lemma chunk_document_length fuel chunker content m out :
  SmartChunker.chunk_document fuel chunker content m = Returns out ->
  (length out <= 3)%nat.
Proof.
  unfold SmartChunker.chunk_document.
  destruct (SmartChunker.chunk_text fuel chunker content); [|done..].
  apply filter_chunks_length.
Qed.

Lemma concat_length_le (lists : list (list str)) :
  Forall (fun l => (length l <= 3)%nat) lists ->
  (length (concat lists) <= 3 * length lists)%nat.
Proof.
  induction 1 as [|l lists Hl _ IH]; [done|].
  cbn [concat length]. rewrite length_app. lia.
Qed.

(** X16.  A run of [_summarize_documents] that returns has made at
    most [3 * len(documents) - 1] calls of [summarize]; it has written
    no file or one file, whose content is the string it returns; and
    it has left every list that existed before as it was. *)
Theorem pipeline_cost fuel env can_write chunker settings (h : store)
    documents save_to s eff h' :
  _summarize_documents fuel env can_write chunker settings h documents save_to
  = Done (s, eff, h') ->
  (length (summarize_calls eff) <= 3 * length documents - 1)%nat
  /\ (written eff = []
      \/ exists path,
          written eff = [(path, s)] /\ path <> []
          /\ can_write path s = true)
  /\ forall l v, h !! l = Some v -> h' !! l = Some v.
Proof.
  unfold _summarize_documents.
  destruct documents as [|document documents].
  { cbn. intros [= <- <- <-]. split; [done|]. split; [by left|done]. }
  cbn [truthy negb]. destruct (new_list_fresh h) as [Hfresh Hsub].
  unfold new_list in *. cbn [fst snd] in Hfresh, Hsub.
  set (all_chunks := fresh (dom h)) in *.
  destruct (gather fuel chunker _ all_chunks (document :: documents))
    as [h1| |] eqn:Hg; [|done..].
  destruct (gather_spec _ _ _ _ _ _ [] (lookup_insert_eq _ _ _) Hg)
    as (lists & Hh1 & Hlen & Hall).
  rewrite insert_insert_eq in Hh1. cbn [app] in Hh1. cbn [lift and_then].
  assert (H1 : h1 !! all_chunks = Some (concat lists))
    by (rewrite Hh1; apply lookup_insert_eq).
  assert (Hsub1 : forall l v, h !! l = Some v -> h1 !! l = Some v).
  { intros l v Hl. rewrite Hh1, lookup_insert_ne; [done|]. congruence. }
  rewrite (deref_lookup _ _ _ H1).
  destruct (concat lists) as [|x all] eqn:Ec.
  { cbn. intros [= <- <- <-]. split; [cbn; lia|]. split; [by left|done]. }
  cbn [truthy negb].
  destruct (merge_calls_le env h1 all_chunks (x :: all) H1)
    as (m & h2 & -> & Hcalls & Hframe).
  cbn [lift and_then].
  assert (Hn : (length (x :: all) <= 3 * length (document :: documents))%nat).
  { rewrite <- Ec, <- Hlen. apply concat_length_le.
    clear -Hall. induction Hall as [|? ? ? ? Hr _ IH]; constructor; [|done].
    by eapply chunk_document_length. }
  assert (Hsub2 : forall l v, h !! l = Some v -> h2 !! l = Some v).
  { intros l v Hl. apply Hframe; [congruence|by apply Hsub1]. }
  set (formatted := format_final_summary _ _).
  set (target := match save_to, OUTPUT_FILE settings with
                 | None, Some output_file => _
                 | _, _ => save_to
                 end).
  destruct target as [path|].
  - destruct path as [|c path]; cbn [truthy].
    + intros [= <- <- <-]. cbn [summarize_calls written].
      split; [lia|]. split; [by left|done].
    + destruct (can_write (c :: path) formatted) eqn:Ew; [|done].
      intros [= <- <- <-]. cbn [summarize_calls written].
      split; [lia|]. split; [|done]. right. by exists (c :: path).
  - intros [= <- <- <-]. cbn [summarize_calls written].
    split; [lia|]. split; [by left|done].
Qed.

Lemma pipeline_cost_witness :
  exists s eff h',
    _summarize_documents 5 steady (fun _ _ => true) roomy
      (MkSettings (lit "bullets") (Some (lit "out.txt")))
      (holding [A]) [(lit "a.txt", paragraph); (lit "b.txt", paragraph)] None
    = Done (s, eff, h')
    /\ (length (summarize_calls eff) <= 3 * 2 - 1)%nat
    /\ (written eff = []
        \/ exists path,
            written eff = [(path, s)] /\ path <> []
            /\ (fun _ _ => true) path s = true)
    /\ forall l v, holding [A] !! l = Some v -> h' !! l = Some v.
Proof.
  destruct (_summarize_documents 5 steady (fun _ _ => true) roomy
              (MkSettings (lit "bullets") (Some (lit "out.txt")))
              (holding [A])
              [(lit "a.txt", paragraph); (lit "b.txt", paragraph)] None)
    as [[[s eff] h']| |] eqn:Hrun; [|vm_compute in Hrun; discriminate..].
  exists s, eff, h'. split; [reflexivity|].
  exact (pipeline_cost _ _ _ _ _ _ _ _ _ _ _ Hrun).
Defined.
End PipelineProofs.
